(** * Build duration logger: the Export API sample of Gradle Enterprise

    A shallow embedding of [samples/build-duration-logger/index.js]:
    - [createServerSideEventStream], the wrapper around an [EventSource]
      that counts retries and maps the 204 status to [oncomplete];
    - the handler registry of [BuildProcessor] (event types found from the
      method names of the handler classes, the per-build handler object);
    - the scheduler of [BuildProcessor] ([enqueue], [processPendingBuilds],
      [processBuild], [finishedProcessingBuild]).

    JavaScript numbers are integers of [Z] here, [undefined] is [None],
    closures that mutate the processor are functions on the state they
    mutate, and the event loop is a list of inputs handled one at a time. *)

From Stdlib Require Import ZArith.
From stdpp Require Import gmap strings list fin_maps sorting pretty.

#[local] Set Warnings "-clear-no-such-hyp".

(** ** JavaScript prelude *)

(** [x || d] on a number that may be undefined: [0] is falsy as well. *)
Definition js_or (x : option Z) (d : Z) : Z :=
  match x with
  | Some v => if (v =? 0)%Z then d else v
  | None => d
  end.

(** [r < m] where [r] may be undefined: [undefined] converts to [NaN] and
    every comparison with [NaN] is false. *)
Definition js_lt (r : option Z) (m : Z) : bool :=
  match r with
  | Some v => (v <? m)%Z
  | None => false
  end.

(** [r++] on a variable that may be undefined. The result of incrementing
    [undefined] is [NaN], which compares like [undefined] does: both are
    [None]. *)
Definition js_incr (r : option Z) : option Z :=
  match r with
  | Some v => Some (v + 1)%Z
  | None => None
  end.

(** ** The transport: what an [EventSource] tells its handlers *)

Inductive ReadyState := CONNECTING | OPEN | CLOSED.

Global Instance ReadyState_eq_dec : EqDecision ReadyState.
Proof. solve_decision. Defined.

(** One call of the transport into the wrapper. [Errored status rs] is a
    call of [stream.onerror] with [event.status = status] made while
    [stream.readyState] is [rs]; [Named] is a named server-sent event with
    its data already parsed. *)
Inductive Notification (D : Type) :=
| Opened
| Errored (status : option Z) (readyState : ReadyState)
| Named (name : string) (data : D).
Global Arguments Opened {D}.
Global Arguments Errored {D} status readyState.
Global Arguments Named {D} name data.

(** ** createServerSideEventStream *)

Definition STATUS_COMPLETE : Z := 204.

Record RetryConfiguration := {
  interval : option Z;
  maxRetries : option Z
}.

(** What the wrapper does, in the order it does it: a journal kept next to
    the state, so that callbacks that are no-ops still leave a trace. *)
Inductive Action :=
| CalledOnOpen
| CalledOnError (status : option Z)
| CalledOnComplete
| CalledListener (name : string)
| StreamClose
| LogConnecting
| LogMaxRetriesReached.

Global Instance Action_eq_dec : EqDecision Action.
Proof. solve_decision. Defined.

(** The variables of one call of [createServerSideEventStream]: [retries]
    is declared without a value, [closed] tells whether [stream.close()]
    has been called. *)
Record Connection := {
  retries : option Z;
  closed : bool;
  reconnectInterval : Z;
  journal : list Action
}.

Definition record (a : Action) (c : Connection) : Connection :=
  {| retries := retries c; closed := closed c;
     reconnectInterval := reconnectInterval c;
     journal := journal c ++ [a] |}.

Definition set_retries (r : option Z) (c : Connection) : Connection :=
  {| retries := r; closed := closed c;
     reconnectInterval := reconnectInterval c; journal := journal c |}.

Definition stream_close (c : Connection) : Connection :=
  record StreamClose
    {| retries := retries c; closed := true;
       reconnectInterval := reconnectInterval c; journal := journal c |}.

Section Stream.
(** [S] is the state the callbacks of the caller act on, [D] the parsed
    data of a named event. *)
Context {S D : Type}.

Record EventListener := {
  eventName : string;
  eventHandler : D → S → S
}.

Record Configuration := {
  onopen : option (S → S);
  onerror : option (option Z → S → S);
  oncomplete : option (S → S);
  eventListeners : list EventListener;
  retry : option RetryConfiguration
}.

Variable configuration : Configuration.

Definition noop : S → S := λ s, s.

Definition _onopen : S → S := default noop (onopen configuration).
Definition _onerror : option Z → S → S :=
  default (λ _, noop) (onerror configuration).
Definition _oncomplete : S → S := default noop (oncomplete configuration).
Definition _maxRetries : Z :=
  js_or (retry configuration ≫= maxRetries) 0.
Definition _retryInterval : Z :=
  js_or (retry configuration ≫= interval) 1000.

(** The state right after [createStream()]: nothing has happened yet. *)
Definition createServerSideEventStream : Connection :=
  {| retries := None; closed := false;
     reconnectInterval := _retryInterval; journal := [] |}.

(** [stream.onopen] *)
Definition stream_onopen (cs : Connection * S) : Connection * S :=
  (record CalledOnOpen (set_retries (Some 0%Z) cs.1), _onopen cs.2).

(** The retry block of [stream.onerror], entered when
    [stream.readyState === EventSourcePolyfill.CONNECTING]. *)
Definition retry_or_close (status : option Z) (c : Connection) : Connection :=
  if (0 <? _maxRetries)%Z && js_lt (retries c) _maxRetries then
    let c := record LogConnecting c in
    if status is Some _ then set_retries (js_incr (retries c)) c else c
  else
    record LogMaxRetriesReached (stream_close c).

(** [stream.onerror] *)
Definition stream_onerror (status : option Z) (rs : ReadyState)
    (cs : Connection * S) : Connection * S :=
  if bool_decide (status = Some STATUS_COMPLETE) then
    (record CalledOnComplete cs.1, _oncomplete cs.2)
  else
    let c := if bool_decide (rs = CONNECTING)
             then retry_or_close status cs.1 else cs.1 in
    (record (CalledOnError status) c, _onerror status cs.2).

(** The listeners added by [addStreamEventListeners], called in the order
    they were added when an event of their name arrives. *)
Definition stream_onevent (name : string) (data : D)
    (cs : Connection * S) : Connection * S :=
  foldl (λ cs l, (record (CalledListener name) cs.1, eventHandler l data cs.2))
        cs (filter (λ l, eventName l = name) (eventListeners configuration)).

Definition notify (cs : Connection * S) (n : Notification D) : Connection * S :=
  match n with
  | Opened => stream_onopen cs
  | Errored status rs => stream_onerror status rs cs
  | Named name data => stream_onevent name data cs
  end.

Definition deliver (ns : list (Notification D)) (cs : Connection * S)
    : Connection * S :=
  foldl notify cs ns.
End Stream.

Global Arguments EventListener : clear implicits.
Global Arguments Configuration : clear implicits.

(** ** The handler registry of BuildProcessor *)

(** A build as published on the top-level stream. *)
Record Build := { buildId : string }.

Global Instance Build_eq_dec : EqDecision Build.
Proof. solve_decision. Defined.

(** A handler class is known to the processor only through
    [Object.getOwnPropertyNames(handlerClass.prototype)]: the names of the
    methods it declares, ["constructor"] among them. The classes are flat
    (no [extends]), so a method can be called on an instance exactly when
    its name is in this list. *)
Record HandlerClass := { prototypeNames : list string }.

Global Instance HandlerClass_eq_dec : EqDecision HandlerClass.
Proof. solve_decision. Defined.

(** [name.startsWith(p)] and [name.substring(n)] *)
Definition startsWith (p name : string) : bool := String.prefix p name.
Definition substring_from (n : nat) (name : string) : string :=
  String.substring n (String.length name - n) name.

Definition getHandledEventTypesForHandlerClass (handlerClass : HandlerClass)
    : list string :=
  substring_from 2 <$>
    filter (λ methodName, startsWith "on" methodName = true)
           (prototypeNames handlerClass).

(** A JavaScript [Set] of strings: its elements in insertion order. *)
Definition Set_add (s : list string) (x : string) : list string :=
  if bool_decide (x ∈ s) then s else s ++ [x].
Definition new_Set (l : list string) : list string := foldl Set_add [] l.
Definition Set_has (s : list string) (x : string) : bool := bool_decide (x ∈ s).

Definition getAllHandledEventTypes (eventHandlerClasses : list HandlerClass)
    : list string :=
  new_Set (foldl (λ eventTypes handlerClass,
                    eventTypes ++ getHandledEventTypesForHandlerClass handlerClass)
                 [] eventHandlerClasses).

(** [array.join(sep)] *)
Definition join (sep : string) (l : list string) : string := String.concat sep l.

(** An instance of a handler class, made by [new] for one build. [handlerId]
    stands for the identity of the object: the allocation number. *)
Record Handler := {
  handlerId : nat;
  handlerClass : HandlerClass;
  handlerBuild : Build
}.

Global Instance Handler_eq_dec : EqDecision Handler.
Proof. solve_decision. Defined.

(** The handler object starts as [{}], whose prototype is
    [Object.prototype]: reading [handlers[type]] for one of these names
    finds the inherited member (truthy, and without a [push]) when the
    object has no property of its own under that name. *)
Definition Object_prototype_names : list string :=
  [ "constructor"; "__defineGetter__"; "__defineSetter__"; "hasOwnProperty";
    "__lookupGetter__"; "__lookupSetter__"; "isPrototypeOf";
    "propertyIsEnumerable"; "toString"; "valueOf"; "__proto__";
    "toLocaleString" ].

(** [addHandler] of [createBuildEventHandlers]; [None] is the TypeError of
    calling [push] on an inherited member. *)
Definition addHandler (type : string) (handler : Handler)
    (handlers : gmap string (list Handler)) : option (gmap string (list Handler)) :=
  match handlers !! type with
  | Some l => Some (<[type := l ++ [handler]]> handlers)
  | None =>
      if bool_decide (type ∈ Object_prototype_names) then None
      else Some (<[type := [handler]]> handlers)
  end.

(** [types.forEach(eventType => addHandler(eventType, handler))] *)
Fixpoint addHandlers (types : list string) (handler : Handler)
    (handlers : gmap string (list Handler)) : option (gmap string (list Handler)) :=
  match types with
  | [] => Some handlers
  | type :: types =>
      handlers ← addHandler type handler handlers;
      addHandlers types handler handlers
  end.

Definition includes (l : list string) (x : string) : bool := bool_decide (x ∈ l).

(** The body of the [reduce] callback for one class; [id] is the allocation
    number of the instance it creates. *)
Definition registerHandlerClass (build : Build) (id : nat)
    (handlerClass : HandlerClass) (handlers : gmap string (list Handler))
    : option (gmap string (list Handler)) :=
  let handler := {| handlerId := id; handlerClass := handlerClass;
                    handlerBuild := build |} in
  handlers ← addHandlers (getHandledEventTypesForHandlerClass handlerClass)
                         handler handlers;
  if includes (prototypeNames handlerClass) "complete"
  then addHandler "complete" handler handlers
  else Some handlers.

Fixpoint reduceHandlerClasses (build : Build) (id : nat)
    (eventHandlerClasses : list HandlerClass)
    (handlers : gmap string (list Handler)) : option (gmap string (list Handler)) :=
  match eventHandlerClasses with
  | [] => Some handlers
  | handlerClass :: rest =>
      handlers ← registerHandlerClass build id handlerClass handlers;
      reduceHandlerClasses build (S id) rest handlers
  end.

(** [createBuildEventHandlers(build)], the instances numbered from
    [firstId] in the order of the classes. *)
Definition createBuildEventHandlers (eventHandlerClasses : list HandlerClass)
    (build : Build) (firstId : nat) : option (gmap string (list Handler)) :=
  reduceHandlerClasses build firstId eventHandlerClasses ∅.

(** ** BuildProcessor *)

(** The parsed data of a [BuildEvent]: [eventType] is
    [buildEventPayload.type.eventType], the rest of the payload is carried
    along unread. *)
Record BuildEventPayload := {
  eventType : string;
  payloadBody : string
}.

(** A method called on a handler instance: [handler.onX(payload)] or
    [handler.complete()]. What the method does is the handler's business. *)
Record Invocation := {
  receiver : Handler;
  method : string;
  argument : option BuildEventPayload
}.

(** One per-build stream made by [processBuild], with the handler object
    its callbacks close over. *)
Record BuildStream := {
  streamBuild : Build;
  streamUrl : string;
  streamHandlers : gmap string (list Handler);
  streamConnection : Connection
}.

(** The fields of the processor that are set by the constructor and never
    assigned again. *)
Record BuildProcessor := {
  gradleEnterpriseServerUrl : string;
  eventHandlerClasses : list HandlerClass;
  allHandledEventTypes : list string;
  maxConcurrentBuildsToProcess : Z
}.

Definition new_BuildProcessor (gradleEnterpriseServerUrl : string)
    (maxConcurrentBuildsToProcess : Z) (eventHandlerClasses : list HandlerClass)
    : BuildProcessor :=
  {| gradleEnterpriseServerUrl := gradleEnterpriseServerUrl;
     eventHandlerClasses := eventHandlerClasses;
     allHandledEventTypes := getAllHandledEventTypes eventHandlerClasses;
     maxConcurrentBuildsToProcess := maxConcurrentBuildsToProcess |}.

(** Everything that changes while the process runs: the two mutable fields
    of the processor, the timers set by [setTimeout] and not yet run, the
    streams opened so far, and what has been observed from outside (the
    methods called on handlers, the TypeErrors thrown, the builds handed to
    [processBuild]). *)
Record World := {
  pendingBuilds : list Build;
  numBuildsInProcess : Z;
  timeouts : nat;
  buildStreams : list BuildStream;
  listener : option Connection;
  allocated : nat;
  processed : list Build;
  invocations : list Invocation;
  typeErrors : nat
}.

Definition initial : World :=
  {| pendingBuilds := []; numBuildsInProcess := 0; timeouts := 0;
     buildStreams := []; listener := None; allocated := 0; processed := [];
     invocations := []; typeErrors := 0 |}.

Definition set_pendingBuilds (l : list Build) (w : World) : World :=
  {| pendingBuilds := l; numBuildsInProcess := numBuildsInProcess w;
     timeouts := timeouts w; buildStreams := buildStreams w;
     listener := listener w; allocated := allocated w;
     processed := processed w; invocations := invocations w;
     typeErrors := typeErrors w |}.

Definition set_numBuildsInProcess (n : Z) (w : World) : World :=
  {| pendingBuilds := pendingBuilds w; numBuildsInProcess := n;
     timeouts := timeouts w; buildStreams := buildStreams w;
     listener := listener w; allocated := allocated w;
     processed := processed w; invocations := invocations w;
     typeErrors := typeErrors w |}.

Definition set_timeouts (n : nat) (w : World) : World :=
  {| pendingBuilds := pendingBuilds w;
     numBuildsInProcess := numBuildsInProcess w;
     timeouts := n; buildStreams := buildStreams w;
     listener := listener w; allocated := allocated w;
     processed := processed w; invocations := invocations w;
     typeErrors := typeErrors w |}.

Definition set_buildStreams (l : list BuildStream) (w : World) : World :=
  {| pendingBuilds := pendingBuilds w;
     numBuildsInProcess := numBuildsInProcess w;
     timeouts := timeouts w; buildStreams := l;
     listener := listener w; allocated := allocated w;
     processed := processed w; invocations := invocations w;
     typeErrors := typeErrors w |}.

Definition set_listener (c : option Connection) (w : World) : World :=
  {| pendingBuilds := pendingBuilds w;
     numBuildsInProcess := numBuildsInProcess w;
     timeouts := timeouts w; buildStreams := buildStreams w;
     listener := c; allocated := allocated w;
     processed := processed w; invocations := invocations w;
     typeErrors := typeErrors w |}.

Definition handed_over (build : Build) (n : nat) (w : World) : World :=
  {| pendingBuilds := pendingBuilds w;
     numBuildsInProcess := numBuildsInProcess w;
     timeouts := timeouts w; buildStreams := buildStreams w;
     listener := listener w; allocated := allocated w + n;
     processed := processed w ++ [build]; invocations := invocations w;
     typeErrors := typeErrors w |}.

Definition invoked (i : Invocation) (w : World) : World :=
  {| pendingBuilds := pendingBuilds w;
     numBuildsInProcess := numBuildsInProcess w;
     timeouts := timeouts w; buildStreams := buildStreams w;
     listener := listener w; allocated := allocated w;
     processed := processed w; invocations := invocations w ++ [i];
     typeErrors := typeErrors w |}.

Definition throwTypeError (w : World) : World :=
  {| pendingBuilds := pendingBuilds w;
     numBuildsInProcess := numBuildsInProcess w;
     timeouts := timeouts w; buildStreams := buildStreams w;
     listener := listener w; allocated := allocated w;
     processed := processed w; invocations := invocations w;
     typeErrors := S (typeErrors w) |}.

(** [handler[method](argument)]: a TypeError when the class has no such
    method. *)
Definition invoke (method : string) (argument : option BuildEventPayload)
    (handler : Handler) (w : World) : option World :=
  if includes (prototypeNames (handlerClass handler)) method
  then Some (invoked {| receiver := handler; method := method;
                         argument := argument |} w)
  else None.

(** [handlers.forEach(handler => handler[method](argument))]: the first
    TypeError ends the loop, the calls made before it stay made. *)
Fixpoint forEach_invoke (method : string) (argument : option BuildEventPayload)
    (handlers : list Handler) (w : World) : World :=
  match handlers with
  | [] => w
  | handler :: handlers =>
      match invoke method argument handler w with
      | Some w => forEach_invoke method argument handlers w
      | None => throwTypeError w
      end
  end.

Section BuildProcessor.
Variable this : BuildProcessor.

Definition createBuildStreamUrl (startTime : string) : string :=
  gradleEnterpriseServerUrl this +:+ "/build-export/v1/builds/since/"
    +:+ startTime +:+ "?stream".

Definition createBuildEventStreamUrl (buildId : string) : string :=
  let types := join "," (allHandledEventTypes this) in
  gradleEnterpriseServerUrl this +:+ "/build-export/v1/build/" +:+ buildId
    +:+ "/events?eventTypes=" +:+ types.

Definition finishedProcessingBuild (w : World) : World :=
  set_timeouts (S (timeouts w))
    (set_numBuildsInProcess (numBuildsInProcess w - 1) w).

(** The [oncomplete] callback of [processBuild]. *)
Definition build_oncomplete (buildEventHandlers : gmap string (list Handler))
    (w : World) : World :=
  let w := finishedProcessingBuild w in
  match buildEventHandlers !! "complete" with
  | Some handlers => forEach_invoke "complete" None handlers w
  | None => w
  end.

(** The [BuildEvent] listener of [processBuild]. Indexing the handler
    object with a type it has no list for gives a value without a usable
    [forEach]: a TypeError. *)
Definition build_onevent (buildEventHandlers : gmap string (list Handler))
    (buildEventPayload : BuildEventPayload) (w : World) : World :=
  let eventType := eventType buildEventPayload in
  if Set_has (allHandledEventTypes this) eventType then
    match buildEventHandlers !! eventType with
    | Some handlers =>
        forEach_invoke ("on" +:+ eventType) (Some buildEventPayload) handlers w
    | None => throwTypeError w
    end
  else w.

(** The configuration [processBuild] passes to
    [createServerSideEventStream]: no [onopen], no [onerror]. *)
Definition buildStreamConfiguration
    (buildEventHandlers : gmap string (list Handler))
    : Configuration World BuildEventPayload :=
  {| onopen := None;
     onerror := None;
     oncomplete := Some (build_oncomplete buildEventHandlers);
     eventListeners :=
       [ {| eventName := "BuildEvent";
            eventHandler := build_onevent buildEventHandlers |} ];
     retry := Some {| interval := Some 2000%Z; maxRetries := Some 100%Z |} |}.

(** [processBuild(build)]. A TypeError out of [createBuildEventHandlers]
    leaves the count incremented and no stream behind. *)
Definition processBuild (build : Build) (w : World) : World :=
  let w := set_numBuildsInProcess (numBuildsInProcess w + 1) w in
  let firstId := allocated w in
  let w := handed_over build (length (eventHandlerClasses this)) w in
  match createBuildEventHandlers (eventHandlerClasses this) build firstId with
  | Some buildEventHandlers =>
      let buildEventStreamUrl := createBuildEventStreamUrl (buildId build) in
      set_buildStreams
        (buildStreams w ++
           [ {| streamBuild := build;
                streamUrl := buildEventStreamUrl;
                streamHandlers := buildEventHandlers;
                streamConnection :=
                  createServerSideEventStream
                    (buildStreamConfiguration buildEventHandlers) |} ]) w
  | None => throwTypeError w
  end.

Definition processPendingBuilds (w : World) : World :=
  match pendingBuilds w with
  | build :: rest =>
      if (numBuildsInProcess w <? maxConcurrentBuildsToProcess this)%Z
      then processBuild build (set_pendingBuilds rest w)
      else w
  | [] => w
  end.

Definition enqueue (build : Build) (w : World) : World :=
  processPendingBuilds (set_pendingBuilds (pendingBuilds w ++ [build]) w).

(** The configuration [start] passes: its [onopen] and [onerror] only
    write to the console, which is not part of the state. *)
Definition listenerConfiguration : Configuration World Build :=
  {| onopen := Some (λ w, w);
     onerror := Some (λ _ w, w);
     oncomplete := None;
     eventListeners :=
       [ {| eventName := "Build"; eventHandler := enqueue |} ];
     retry := Some {| interval := Some 6000%Z; maxRetries := Some 30%Z |} |}.

(** [start(startTime)] *)
Definition start (w : World) : World :=
  set_listener (Some (createServerSideEventStream listenerConfiguration)) w.

(** ** The event loop *)

(** What the event loop can run next: a notification of the top-level
    stream, a timer set by [finishedProcessingBuild], or a notification
    of the [i]-th per-build stream. *)
Inductive Input :=
| ListenerNotification (n : Notification Build)
| TimeoutFired
| BuildStreamNotification (i : nat) (n : Notification BuildEventPayload).

Definition set_streamConnection (c : Connection) (s : BuildStream) : BuildStream :=
  {| streamBuild := streamBuild s; streamUrl := streamUrl s;
     streamHandlers := streamHandlers s; streamConnection := c |}.

Definition step (w : World) (input : Input) : World :=
  match input with
  | ListenerNotification n =>
      match listener w with
      | Some c =>
          let cw := notify listenerConfiguration (c, w) n in
          set_listener (Some cw.1) cw.2
      | None => w
      end
  | TimeoutFired =>
      match timeouts w with
      | S k => processPendingBuilds (set_timeouts k w)
      | O => w
      end
  | BuildStreamNotification i n =>
      match buildStreams w !! i with
      | Some s =>
          let cw := notify (buildStreamConfiguration (streamHandlers s))
                           (streamConnection s, w) n in
          set_buildStreams
            (alter (set_streamConnection cw.1) i (buildStreams cw.2)) cw.2
      | None => w
      end
  end.

Definition run (w : World) (inputs : list Input) : World := foldl step w inputs.
End BuildProcessor.

(** ** Measures on traces and sample inputs *)

(** The transport's report of the "no more data" status. *)
Definition is_completion {D} (n : Notification D) : bool :=
  match n with
  | Errored status _ => bool_decide (status = Some STATUS_COMPLETE)
  | _ => false
  end.

Definition completions {D} (ns : list (Notification D)) : nat :=
  length (filter (λ n, is_completion n = true) ns).

Definition occurrences (a : Action) (l : list Action) : nat :=
  length (filter (λ b, b = a) l).

(** A transient error that carries a status: a failed reconnection seen
    while the stream is connecting. *)
Definition transient {D} (status : Z) : Notification D :=
  Errored (Some status) CONNECTING.

(** A configuration that only sets the retry ceiling. *)
Definition retrying (n : Z) : Configuration unit unit :=
  {| onopen := None; onerror := None; oncomplete := None;
     eventListeners := [];
     retry := Some {| interval := None; maxRetries := Some n |} |}.

(** The two handler classes of the sample and the processor it starts. *)
Definition BuildDurationEventsHandler : HandlerClass :=
  {| prototypeNames := ["constructor"; "onBuildStarted"; "onBuildFinished"] |}.
Definition CacheableTaskCountHandler : HandlerClass :=
  {| prototypeNames := ["constructor"; "onTaskFinished"; "complete"] |}.
Definition BUILD_EVENT_HANDLERS : list HandlerClass :=
  [BuildDurationEventsHandler; CacheableTaskCountHandler].
Definition GRADLE_ENTERPRISE_SERVER_URL : string := "https://localhost:5050".
Definition MAX_CONCURRENT_BUILDS_TO_PROCESS : Z := 6.
Definition sample : BuildProcessor :=
  new_BuildProcessor GRADLE_ENTERPRISE_SERVER_URL
    MAX_CONCURRENT_BUILDS_TO_PROCESS BUILD_EVENT_HANDLERS.

(** ** What the handler object of a build holds *)

Definition times (key : string) (keys : list string) : nat :=
  length (filter (λ k, k = key) keys).

(** The keys under which [registerHandlerClass] adds the instance of a
    class, in the order of the calls of [addHandler]. *)
Definition registrations (handlerClass : HandlerClass) : list string :=
  getHandledEventTypesForHandlerClass handlerClass
    ++ (if includes (prototypeNames handlerClass) "complete"
        then ["complete"] else []).

(** The instances found under [key] once every class has been registered:
    class by class, one copy per registration. *)
Fixpoint registered (key : string) (build : Build) (id : nat)
    (eventHandlerClasses : list HandlerClass) : list Handler :=
  match eventHandlerClasses with
  | [] => []
  | handlerClass :: rest =>
      replicate (times key (registrations handlerClass))
        {| handlerId := id; handlerClass := handlerClass;
           handlerBuild := build |}
      ++ registered key build (S id) rest
  end.

(** The instances whose class declares [complete], in the order of the
    classes. *)
Fixpoint finalizable (build : Build) (id : nat)
    (eventHandlerClasses : list HandlerClass) : list Handler :=
  match eventHandlerClasses with
  | [] => []
  | handlerClass :: rest =>
      (if includes (prototypeNames handlerClass) "complete"
       then [ {| handlerId := id; handlerClass := handlerClass;
                 handlerBuild := build |} ]
       else [])
      ++ finalizable build (S id) rest
  end.

(** Appending to a property that may not exist yet. *)
Definition extend (o : option (list Handler)) (l : list Handler)
    : option (list Handler) :=
  match o, l with
  | None, [] => None
  | _, _ => Some (default [] o ++ l)
  end.

(** No handler class declares a method called [oncomplete], whose event
    type would be the key kept for the [complete] methods. *)
Definition no_oncomplete (eventHandlerClasses : list HandlerClass) : Prop :=
  ∀ handlerClass, handlerClass ∈ eventHandlerClasses →
    "oncomplete" ∉ prototypeNames handlerClass.

(** No event type is the name of a member of [Object.prototype]. *)
Definition no_inherited (eventHandlerClasses : list HandlerClass) : Prop :=
  ∀ type, type ∈ getAllHandledEventTypes eventHandlerClasses →
    type ∉ Object_prototype_names.

(** The calls of [complete] among the methods called so far. *)
Definition finalizations (w : World) : list Handler :=
  receiver <$> filter (λ i, method i = "complete") (invocations w).

(** The call of [method] on each of [handlers], in order. *)
Definition calls (method : string) (argument : option BuildEventPayload)
    (handlers : list Handler) : list Invocation :=
  (λ handler, {| receiver := handler; method := method; argument := argument |})
    <$> handlers.

Definition set_invocations (l : list Invocation) (w : World) : World :=
  {| pendingBuilds := pendingBuilds w;
     numBuildsInProcess := numBuildsInProcess w;
     timeouts := timeouts w; buildStreams := buildStreams w;
     listener := listener w; allocated := allocated w;
     processed := processed w; invocations := l;
     typeErrors := typeErrors w |}.

(** Two states in which the scheduler and the streams are the same: they
    may differ in the methods called on handlers and the errors thrown. *)
Definition same_scheduling (w w' : World) : Prop :=
  pendingBuilds w' = pendingBuilds w
  ∧ numBuildsInProcess w' = numBuildsInProcess w
  ∧ timeouts w' = timeouts w
  ∧ buildStreams w' = buildStreams w
  ∧ listener w' = listener w
  ∧ allocated w' = allocated w
  ∧ processed w' = processed w.

(** The builds an input publishes: the data of a [Build] event on the
    top-level stream. *)
Definition published_by (input : Input) : list Build :=
  match input with
  | ListenerNotification (Named name build) =>
      if bool_decide (name = "Build") then [build] else []
  | _ => []
  end.

Definition published (inputs : list Input) : list Build :=
  inputs ≫= published_by.

(** What notifications of the [i]-th per-build stream that reach no
    [oncomplete] leave as it was: the queue, the count, the timers, the
    builds handed over, the calls of [complete], and every other stream. *)
Definition undisturbed (i : nat) (w w' : World) : Prop :=
  pendingBuilds w' = pendingBuilds w
  ∧ numBuildsInProcess w' = numBuildsInProcess w
  ∧ timeouts w' = timeouts w
  ∧ listener w' = listener w
  ∧ processed w' = processed w
  ∧ finalizations w' = finalizations w
  ∧ length (buildStreams w') = length (buildStreams w)
  ∧ ∀ j, j ≠ i → buildStreams w' !! j = buildStreams w !! j.

(** Handler classes on which the key [complete] is used twice over. *)
Definition CompletionEventHandler : HandlerClass :=
  {| prototypeNames := ["constructor"; "oncomplete"; "complete"] |}.
Definition CompletionListener : HandlerClass :=
  {| prototypeNames := ["constructor"; "oncomplete"] |}.

Definition build1 : Build := {| buildId := "xc5vbsmsthgrq" |}.

(** A per-build stream as [processBuild] makes it: opened at the URL of
    its build, with the handler object built for that build. *)
Definition made_by_processBuild (this : BuildProcessor) (s : BuildStream) : Prop :=
  streamUrl s = createBuildEventStreamUrl this (buildId (streamBuild s))
  ∧ ∃ firstId,
      createBuildEventHandlers (eventHandlerClasses this) (streamBuild s) firstId
      = Some (streamHandlers s).

(** ** Further measures on traces *)

(** The callback of the caller that a notification reaches. *)
Definition callback {S D} (cfg : Configuration S D) (n : Notification D)
    : S → S :=
  match n with
  | Opened => _onopen cfg
  | Errored status _ =>
      if bool_decide (status = Some STATUS_COMPLETE)
      then _oncomplete cfg else _onerror cfg status
  | Named name data =>
      λ s, foldl (λ s l, eventHandler l data s) s
                 (filter (λ l, eventName l = name) (eventListeners cfg))
  end.

(** A notification that cannot use up the retry budget: an open, a named
    event, the 204 status, an error without a status, or an error seen
    while the stream is not connecting. *)
Definition uncounted {D} (n : Notification D) : bool :=
  match n with
  | Errored status rs =>
      bool_decide (status = None ∨ status = Some STATUS_COMPLETE
                   ∨ rs ≠ CONNECTING)
  | _ => true
  end.


(** The clean completions reported so far on the per-build streams. *)
Definition completed (w : World) : nat :=
  sum_list_with
    (λ s, occurrences CalledOnComplete (journal (streamConnection s)))
    (buildStreams w).

(** An input that reports the clean completion of a per-build stream. *)
Definition is_release (input : Input) : bool :=
  match input with
  | BuildStreamNotification _ n => is_completion n
  | _ => false
  end.

(** ** The handler classes of the sample *)

(** [a - b] on numbers that may be undefined: the difference is [NaN],
    here [None], as soon as one of them is. *)
Definition js_minus (a b : option Z) : option Z :=
  match a, b with
  | Some x, Some y => Some (x - y)%Z
  | _, _ => None
  end.

(** A number in a template literal: an integer (short of [1e21]) in
    decimal notation, or [NaN]. *)
Definition show_number (x : option Z) : string :=
  match x with
  | Some v => pretty v
  | None => "NaN"
  end.

(** The fields of an instance of [BuildDurationEventsHandler]; [startTime]
    is not set by the constructor. *)
Record BuildDurationEvents := {
  durationBuildId : string;
  startTime : option Z
}.

(** The fields of an instance of [CacheableTaskCountHandler]. *)
Record CacheableTaskCount := {
  countBuildId : string;
  cacheableTaskCount : Z
}.

Inductive Instance :=
| DurationInstance (fields : BuildDurationEvents)
| CountInstance (fields : CacheableTaskCount).

(** What the methods of the handlers have done: the instances with the
    fields they have now, the lines written to the console, the TypeErrors
    thrown inside a method. *)
Record Heap := {
  instances : gmap nat Instance;
  console : list string;
  thrown : nat
}.

Definition no_calls : Heap := {| instances := ∅; console := []; thrown := 0 |}.

Section SampleHandlers.
(** Two fields of the payload of a build event: [eventPayload.timestamp],
    and whether [eventPayload.data.cacheable] is truthy, which is [None]
    for a payload without [data], where reading it is a TypeError. *)
Variable timestamp : BuildEventPayload → option Z.
Variable cacheable : BuildEventPayload → option bool.

Definition new_BuildDurationEventsHandler (build : Build) : BuildDurationEvents :=
  {| durationBuildId := buildId build; startTime := None |}.

Definition onBuildStarted (eventPayload : BuildEventPayload)
    (this : BuildDurationEvents) : BuildDurationEvents :=
  {| durationBuildId := durationBuildId this;
     startTime := timestamp eventPayload |}.

(** [onBuildFinished] changes no field: its result is the line it logs. *)
Definition onBuildFinished (eventPayload : BuildEventPayload)
    (this : BuildDurationEvents) : string :=
  let endTime := timestamp eventPayload in
  "Build " +:+ durationBuildId this +:+ " completed in "
    +:+ show_number (js_minus endTime (startTime this)) +:+ "ms".

Definition new_CacheableTaskCountHandler (build : Build) : CacheableTaskCount :=
  {| countBuildId := buildId build; cacheableTaskCount := 0 |}.

(** [None] is the TypeError of reading [cacheable] of an undefined [data]. *)
Definition onTaskFinished (eventPayload : BuildEventPayload)
    (this : CacheableTaskCount) : option CacheableTaskCount :=
  match cacheable eventPayload with
  | Some true =>
      Some {| countBuildId := countBuildId this;
              cacheableTaskCount := cacheableTaskCount this + 1 |}
  | Some false => Some this
  | None => None
  end.

Definition complete (this : CacheableTaskCount) : string :=
  "Build " +:+ countBuildId this +:+ " had "
    +:+ pretty (cacheableTaskCount this) +:+ " cacheable tasks".

(** The instance a handler stands for, as its constructor leaves it. The
    constructors only set fields, so an instance can be made when it is
    first called. *)
Definition construct (handler : Handler) : option Instance :=
  if decide (handlerClass handler = BuildDurationEventsHandler)
  then Some (DurationInstance
               (new_BuildDurationEventsHandler (handlerBuild handler)))
  else if decide (handlerClass handler = CacheableTaskCountHandler)
  then Some (CountInstance
               (new_CacheableTaskCountHandler (handlerBuild handler)))
  else None.

Definition fetch (heap : Heap) (handler : Handler) : option Instance :=
  match instances heap !! handlerId handler with
  | Some instance => Some instance
  | None => construct handler
  end.

Definition store (handler : Handler) (instance : Instance) (heap : Heap) : Heap :=
  {| instances := <[handlerId handler := instance]> (instances heap);
     console := console heap; thrown := thrown heap |}.

Definition log (line : string) (heap : Heap) : Heap :=
  {| instances := instances heap; console := console heap ++ [line];
     thrown := thrown heap |}.

Definition throw (heap : Heap) : Heap :=
  {| instances := instances heap; console := console heap;
     thrown := S (thrown heap) |}.

(** One method call of the record of calls, carried out on the instance
    it was made on. Calls on instances of other classes are not ours to
    carry out. *)
Definition perform (heap : Heap) (call : Invocation) : Heap :=
  match fetch heap (receiver call), argument call with
  | Some (DurationInstance this), Some eventPayload =>
      if decide (method call = "onBuildStarted")
      then store (receiver call)
                 (DurationInstance (onBuildStarted eventPayload this)) heap
      else if decide (method call = "onBuildFinished")
      then log (onBuildFinished eventPayload this)
               (store (receiver call) (DurationInstance this) heap)
      else heap
  | Some (CountInstance this), Some eventPayload =>
      if decide (method call = "onTaskFinished")
      then match onTaskFinished eventPayload this with
           | Some this => store (receiver call) (CountInstance this) heap
           | None => throw (store (receiver call) (CountInstance this) heap)
           end
      else heap
  | Some (CountInstance this), None =>
      if decide (method call = "complete")
      then log (complete this)
               (store (receiver call) (CountInstance this) heap)
      else heap
  | _, _ => heap
  end.

Definition replay (calls : list Invocation) : Heap := foldl perform no_calls calls.

End SampleHandlers.


(** ** createServerSideEventStream: what one notification changes *)

Section StreamFacts.
Context {S D : Type}.
Variable cfg : Configuration S D.

Lemma stream_onevent_connection name data (cs : Connection * S) :
  retries (stream_onevent cfg name data cs).1 = retries cs.1
  ∧ closed (stream_onevent cfg name data cs).1 = closed cs.1
  ∧ ∃ k, journal (stream_onevent cfg name data cs).1
         = journal cs.1 ++ replicate k (CalledListener name).
Proof.
  unfold stream_onevent.
  generalize (filter (λ l, eventName l = name) (eventListeners cfg)).
  intros ls. revert cs.
  induction ls as [|l ls IH]; intros cs; simpl.
  - repeat split; try done. exists 0%nat. by rewrite app_nil_r.
  - destruct (IH (record (CalledListener name) cs.1, eventHandler l data cs.2))
      as (Hr & Hc & k & Hj).
    rewrite Hr, Hc, Hj. simpl. repeat split; try done.
    exists (Datatypes.S k). by rewrite <- app_assoc.
Qed.

Lemma retry_or_close_closed status c :
  closed c = true → closed (retry_or_close cfg status c) = true.
Proof.
  intros Hc. unfold retry_or_close.
  destruct (_ && _); [destruct status|]; simpl; done.
Qed.

Lemma notify_closed (cs : Connection * S) n :
  closed cs.1 = true → closed (notify cfg cs n).1 = true.
Proof.
  intros Hc. destruct n as [|status rs|name data]; simpl.
  - done.
  - unfold stream_onerror. case_bool_decide; simpl; [done|].
    case_bool_decide; [by apply retry_or_close_closed|done].
  - by destruct (stream_onevent_connection name data cs) as (_ & -> & _).
Qed.

Lemma deliver_closed ns (cs : Connection * S) :
  closed cs.1 = true → closed (deliver cfg ns cs).1 = true.
Proof.
  revert cs. induction ns as [|n ns IH]; intros cs Hc; [done|].
  simpl. apply IH. by apply notify_closed.
Qed.

Lemma deliver_nil (cs : Connection * S) : deliver cfg [] cs = cs.
Proof. done. Qed.

Lemma deliver_cons n ns (cs : Connection * S) :
  deliver cfg (n :: ns) cs = deliver cfg ns (notify cfg cs n).
Proof. done. Qed.

Lemma deliver_app ns1 ns2 (cs : Connection * S) :
  deliver cfg (ns1 ++ ns2) cs = deliver cfg ns2 (deliver cfg ns1 cs).
Proof. unfold deliver. apply foldl_app. Qed.

Lemma occurrences_app a l1 l2 :
  occurrences a (l1 ++ l2) = (occurrences a l1 + occurrences a l2)%nat.
Proof. unfold occurrences. by rewrite filter_app, length_app. Qed.

Lemma occurrences_replicate_ne a b k :
  a ≠ b → occurrences a (replicate k b) = 0%nat.
Proof.
  intros Hne. induction k as [|k IH]; [done|].
  simpl. unfold occurrences in *. rewrite filter_cons_False by done. done.
Qed.

(** Only the 204 branch of [stream.onerror] calls [oncomplete], and it
    calls it once. *)
Lemma notify_oncomplete (cs : Connection * S) n :
  occurrences CalledOnComplete (journal (notify cfg cs n).1)
  = (occurrences CalledOnComplete (journal cs.1)
     + if is_completion n then 1 else 0)%nat.
Proof.
  destruct n as [|status rs|name data]; simpl.
  - rewrite occurrences_app. done.
  - unfold stream_onerror. case_bool_decide as Hs; simpl.
    + rewrite occurrences_app. done.
    + rewrite occurrences_app. simpl.
      assert (occurrences CalledOnComplete [CalledOnError status] = 0%nat)
        as -> by done.
      case_bool_decide; [|lia].
      unfold retry_or_close.
      destruct (_ && _); [destruct status|]; simpl;
        rewrite ?occurrences_app; simpl;
        unfold occurrences; simpl; lia.
  - destruct (stream_onevent_connection name data cs) as (_ & _ & k & ->).
    rewrite occurrences_app, occurrences_replicate_ne by done. lia.
Qed.

End StreamFacts.

Section RetryFacts.
Context {S D : Type}.
Variable cfg : Configuration S D.

Lemma notify_Opened_retries (cs : Connection * S) :
  retries (notify cfg cs Opened).1 = Some 0%Z.
Proof. done. Qed.


(** An error that is not the 204 status, seen while connecting, with the
    counter below the ceiling: logged, counted when it has a status. *)
Lemma notify_error_below (cs : Connection * S) status r :
  status ≠ Some STATUS_COMPLETE →
  retries cs.1 = Some r → (0 < _maxRetries cfg)%Z → (r < _maxRetries cfg)%Z →
  notify cfg cs (Errored status CONNECTING)
  = (record (CalledOnError status)
       (if status is Some _
        then set_retries (Some (r + 1)%Z) (record LogConnecting cs.1)
        else record LogConnecting cs.1),
     _onerror cfg status cs.2).
Proof.
  intros Hs Hr Hmax Hlt. simpl. unfold stream_onerror.
  rewrite bool_decide_eq_false_2 by done.
  rewrite bool_decide_eq_true_2 by done.
  unfold retry_or_close. rewrite Hr. simpl.
  assert ((0 <? _maxRetries cfg)%Z = true) as -> by lia.
  assert ((r <? _maxRetries cfg)%Z = true) as -> by lia.
  destruct status; simpl; rewrite ?Hr; done.
Qed.

(** The same error when the counter is not below the ceiling, be it at
    the ceiling or still undefined: the stream is closed. *)
Lemma notify_error_closes (cs : Connection * S) status :
  status ≠ Some STATUS_COMPLETE →
  js_lt (retries cs.1) (_maxRetries cfg) = false →
  notify cfg cs (Errored status CONNECTING)
  = (record (CalledOnError status)
       (record LogMaxRetriesReached (stream_close cs.1)),
     _onerror cfg status cs.2).
Proof.
  intros Hs Hlt. simpl. unfold stream_onerror.
  rewrite bool_decide_eq_false_2 by done.
  rewrite bool_decide_eq_true_2 by done.
  unfold retry_or_close. rewrite Hlt. by rewrite andb_false_r.
Qed.

Lemma notify_retries_cases (cs : Connection * S) n :
  retries (notify cfg cs n).1 = retries cs.1
  ∨ n = Opened
  ∨ ∃ status, n = Errored (Some status) CONNECTING
              ∧ status ≠ STATUS_COMPLETE
              ∧ js_lt (retries cs.1) (_maxRetries cfg) = true
              ∧ retries (notify cfg cs n).1 = js_incr (retries cs.1).
Proof.
  destruct n as [|status rs|name data].
  - by right; left.
  - simpl. unfold stream_onerror. case_bool_decide as Hs; simpl; [by left|].
    case_bool_decide as Hrs; [|by left]. subst rs.
    unfold retry_or_close.
    destruct (0 <? _maxRetries cfg)%Z; simpl; [|by left].
    destruct (js_lt (retries cs.1) (_maxRetries cfg)) eqn:Hlt; [|by left].
    destruct status as [status|]; simpl; [|by left].
    right; right. exists status. repeat split; try done. congruence.
  - left. simpl.
    by destruct (stream_onevent_connection cfg name data cs) as (-> & _).
Qed.

(** Before the first open the counter stays undefined. *)
Lemma deliver_unopened_retries ns (cs : Connection * S) :
  Opened ∉ ns → retries cs.1 = None → retries (deliver cfg ns cs).1 = None.
Proof.
  revert cs. induction ns as [|n ns IH]; intros cs Hno Hr; [done|].
  simpl. apply IH; [set_solver|].
  destruct (notify_retries_cases cs n) as [->|[->|(st & _ & _ & Hlt & _)]].
  - done.
  - set_solver.
  - rewrite Hr in Hlt. done.
Qed.

End RetryFacts.

(** ** Method names and event types *)

Lemma substring_all (s : string) : String.substring 0 (String.length s) s = s.
Proof. induction s as [|a s IH]; simpl; [done|]. by rewrite IH. Qed.

Lemma startsWith_on_inv (name : string) :
  startsWith "on" name = true → name = "on" +:+ substring_from 2 name.
Proof.
  unfold startsWith, substring_from.
  destruct name as [|a [|b r]]; cbn -[Ascii.ascii_dec].
  - discriminate.
  - destruct (Ascii.ascii_dec _ a); discriminate.
  - destruct (Ascii.ascii_dec _ a) as [<-|]; [|discriminate].
    destruct (Ascii.ascii_dec _ b) as [<-|]; [|discriminate].
    intros _. by rewrite Nat.sub_0_r, substring_all.
Qed.

Lemma startsWith_on_app (type : string) :
  startsWith "on" ("on" +:+ type) = true
  ∧ substring_from 2 ("on" +:+ type) = type.
Proof.
  unfold startsWith, substring_from. simpl. split.
  - by destruct type.
  - by rewrite Nat.sub_0_r, substring_all.
Qed.

(** The event types of a class are the names of its methods that start
    with [on], without that prefix. *)
Lemma getHandledEventTypesForHandlerClass_spec handlerClass (type : string) :
  type ∈ getHandledEventTypesForHandlerClass handlerClass
  ↔ "on" +:+ type ∈ prototypeNames handlerClass.
Proof.
  unfold getHandledEventTypesForHandlerClass.
  rewrite list_elem_of_fmap. split.
  - intros (name & -> & Hin). apply list_elem_of_filter in Hin as [Hon Hin].
    by rewrite <- startsWith_on_inv.
  - intros Hin. exists ("on" +:+ type).
    destruct (startsWith_on_app type) as [Hon Hsub].
    split; [done|]. by apply list_elem_of_filter.
Qed.

(** ** The Set of all handled event types *)

Lemma Set_add_elem_of (s : list string) x y :
  x ∈ Set_add s y ↔ x ∈ s ∨ x = y.
Proof.
  unfold Set_add. case_bool_decide as Hy.
  - split; [by left|]. intros [Hx | Hx]; [done|by subst].
  - rewrite elem_of_app, list_elem_of_singleton. done.
Qed.

Lemma Set_add_NoDup (s : list string) y : NoDup s → NoDup (Set_add s y).
Proof.
  intros Hs. unfold Set_add. case_bool_decide; [done|].
  apply NoDup_app. repeat split; [done|set_solver|apply NoDup_singleton].
Qed.

Lemma foldl_Set_add (l s : list string) :
  (∀ x, x ∈ foldl Set_add s l ↔ x ∈ s ∨ x ∈ l)
  ∧ (NoDup s → NoDup (foldl Set_add s l)).
Proof.
  revert s. induction l as [|y l IH]; intros s; simpl.
  - split; [set_solver|done].
  - destruct (IH (Set_add s y)) as [Hin Hnd]. split.
    + intros x. rewrite Hin, Set_add_elem_of. set_solver.
    + intros Hs. by apply Hnd, Set_add_NoDup.
Qed.

Lemma foldl_concat_elem_of {A} (f : A → list string) (l : list A)
    (acc : list string) x :
  x ∈ foldl (λ eventTypes a, eventTypes ++ f a) acc l
  ↔ x ∈ acc ∨ ∃ a, a ∈ l ∧ x ∈ f a.
Proof.
  revert acc. induction l as [|a l IH]; intros acc; simpl.
  - set_solver.
  - rewrite IH. set_solver.
Qed.

(** The Set is the union of the event types of the classes, each once. *)
Lemma getAllHandledEventTypes_spec eventHandlerClasses (type : string) :
  type ∈ getAllHandledEventTypes eventHandlerClasses
  ↔ ∃ handlerClass, handlerClass ∈ eventHandlerClasses
      ∧ type ∈ getHandledEventTypesForHandlerClass handlerClass.
Proof.
  unfold getAllHandledEventTypes, new_Set.
  rewrite (proj1 (foldl_Set_add _ _)), foldl_concat_elem_of. set_solver.
Qed.

Lemma getAllHandledEventTypes_NoDup eventHandlerClasses :
  NoDup (getAllHandledEventTypes eventHandlerClasses).
Proof. apply foldl_Set_add, NoDup_nil_2. Qed.

Lemma no_oncomplete_spec eventHandlerClasses :
  no_oncomplete eventHandlerClasses
  ↔ "complete" ∉ getAllHandledEventTypes eventHandlerClasses.
Proof.
  unfold no_oncomplete. rewrite getAllHandledEventTypes_spec. split.
  - intros Hno (c & Hc & Hin).
    apply getHandledEventTypesForHandlerClass_spec in Hin. by apply (Hno c).
  - intros Hno c Hc Hin. apply Hno. exists c. split; [done|].
    by apply getHandledEventTypesForHandlerClass_spec.
Qed.

(** ** The handler object built by createBuildEventHandlers *)

Lemma extend_nil o : extend o [] = o.
Proof. destruct o as [l|]; simpl; [|done]. by rewrite app_nil_r. Qed.

Lemma extend_extend o l1 l2 : extend (extend o l1) l2 = extend o (l1 ++ l2).
Proof.
  destruct o as [l|], l1 as [|x l1], l2 as [|y l2]; simpl;
    rewrite ?app_nil_r, <- ?app_assoc; done.
Qed.

Lemma addHandler_lookup type handler (handlers handlers' : gmap string (list Handler)) :
  addHandler type handler handlers = Some handlers' →
  ∀ key, handlers' !! key
         = extend (handlers !! key) (if bool_decide (key = type) then [handler] else []).
Proof.
  unfold addHandler. intros Hadd key.
  destruct (handlers !! type) as [l|] eqn:Hl.
  - injection Hadd as <-. case_bool_decide as Hk.
    + subst key. rewrite lookup_insert_eq, Hl. done.
    + rewrite lookup_insert_ne by done. by rewrite extend_nil.
  - case_bool_decide; [done|]. injection Hadd as <-. case_bool_decide as Hk.
    + subst key. rewrite lookup_insert_eq, Hl. done.
    + rewrite lookup_insert_ne by done. by rewrite extend_nil.
Qed.

Lemma addHandler_is_Some type handler (handlers : gmap string (list Handler)) :
  type ∉ Object_prototype_names → is_Some (addHandler type handler handlers).
Proof.
  intros Hno. unfold addHandler. destruct (handlers !! type); [done|].
  by rewrite bool_decide_eq_false_2.
Qed.

Lemma times_cons key k keys :
  times key (k :: keys)
  = ((if bool_decide (key = k) then 1 else 0) + times key keys)%nat.
Proof.
  unfold times. case_bool_decide as Hk.
  - by rewrite filter_cons_True.
  - by rewrite filter_cons_False.
Qed.

Lemma times_app key l1 l2 :
  times key (l1 ++ l2) = (times key l1 + times key l2)%nat.
Proof. unfold times. by rewrite filter_app, length_app. Qed.

Lemma times_zero key keys : times key keys = 0%nat ↔ key ∉ keys.
Proof.
  induction keys as [|k keys IH].
  - split; [intros _; apply not_elem_of_nil|done].
  - rewrite times_cons, not_elem_of_cons.
    case_bool_decide as Hk; split.
    + lia.
    + by intros [? _].
    + intros Hz. split; [done|]. apply IH. lia.
    + intros [_ Hnot]. apply IH in Hnot. lia.
Qed.

Lemma addHandlers_lookup types handler (handlers handlers' : gmap string (list Handler)) :
  addHandlers types handler handlers = Some handlers' →
  ∀ key, handlers' !! key
         = extend (handlers !! key) (replicate (times key types) handler).
Proof.
  revert handlers. induction types as [|type types IH]; intros handlers Hadd key.
  - injection Hadd as <-. by rewrite extend_nil.
  - simpl in Hadd.
    destruct (addHandler type handler handlers) as [h1|] eqn:H1; [|done].
    simpl in Hadd. rewrite (IH _ Hadd), (addHandler_lookup _ _ _ _ H1).
    rewrite extend_extend, times_cons. by case_bool_decide.
Qed.

Lemma addHandlers_is_Some types handler (handlers : gmap string (list Handler)) :
  Forall (λ type, type ∉ Object_prototype_names) types →
  is_Some (addHandlers types handler handlers).
Proof.
  revert handlers. induction types as [|type types IH]; intros handlers Hall.
  - done.
  - apply Forall_cons in Hall as [Hno Hall]. simpl.
    destruct (addHandler_is_Some type handler handlers Hno) as [h1 ->].
    simpl. by apply IH.
Qed.

Lemma addHandlers_app l1 l2 handler (handlers : gmap string (list Handler)) :
  addHandlers (l1 ++ l2) handler handlers
  = addHandlers l1 handler handlers ≫= addHandlers l2 handler.
Proof.
  revert handlers. induction l1 as [|type l1 IH]; intros handlers; [done|].
  simpl. destruct (addHandler type handler handlers); simpl; [apply IH|done].
Qed.

(** Registering a class adds its instance under each of its keys. *)
Lemma registerHandlerClass_registrations build id handlerClass handlers :
  registerHandlerClass build id handlerClass handlers
  = addHandlers (registrations handlerClass)
      {| handlerId := id; handlerClass := handlerClass; handlerBuild := build |}
      handlers.
Proof.
  unfold registerHandlerClass, registrations. rewrite addHandlers_app.
  destruct (addHandlers _ _ handlers) as [h1|]; simpl; [|done].
  destruct (includes _ _); simpl; [|done].
  by destruct (addHandler _ _ h1).
Qed.

Lemma reduceHandlerClasses_lookup build id eventHandlerClasses
    (handlers handlers' : gmap string (list Handler)) :
  reduceHandlerClasses build id eventHandlerClasses handlers = Some handlers' →
  ∀ key, handlers' !! key
         = extend (handlers !! key) (registered key build id eventHandlerClasses).
Proof.
  revert id handlers.
  induction eventHandlerClasses as [|c cs IH]; intros id handlers Hred key.
  - injection Hred as <-. by rewrite extend_nil.
  - simpl in Hred. rewrite registerHandlerClass_registrations in Hred.
    destruct (addHandlers _ _ handlers) as [h1|] eqn:H1; [|done].
    simpl in Hred. rewrite (IH _ _ Hred), (addHandlers_lookup _ _ _ _ H1).
    by rewrite extend_extend.
Qed.

Lemma reduceHandlerClasses_is_Some build id eventHandlerClasses
    (handlers : gmap string (list Handler)) :
  (∀ c type, c ∈ eventHandlerClasses → type ∈ registrations c →
     type ∉ Object_prototype_names) →
  is_Some (reduceHandlerClasses build id eventHandlerClasses handlers).
Proof.
  revert id handlers.
  induction eventHandlerClasses as [|c cs IH]; intros id handlers Hno; [done|].
  simpl. rewrite registerHandlerClass_registrations.
  destruct (addHandlers_is_Some (registrations c)
              {| handlerId := id; handlerClass := c; handlerBuild := build |}
              handlers) as [h1 ->].
  - apply Forall_forall. intros type Hin. apply (Hno c); [|done]. by left.
  - simpl. apply IH. intros c' type Hc'. apply Hno. by right.
Qed.

Lemma registrations_elem_of handlerClass key :
  key ∈ registrations handlerClass
  ↔ key ∈ getHandledEventTypesForHandlerClass handlerClass
    ∨ key = "complete" ∧ "complete" ∈ prototypeNames handlerClass.
Proof.
  unfold registrations, includes. rewrite elem_of_app.
  case_bool_decide as Hc.
  - rewrite list_elem_of_singleton. naive_solver.
  - rewrite elem_of_nil. naive_solver.
Qed.

(** When no event type is an inherited name the handler object is built. *)
Lemma createBuildEventHandlers_is_Some eventHandlerClasses build firstId :
  no_inherited eventHandlerClasses →
  is_Some (createBuildEventHandlers eventHandlerClasses build firstId).
Proof.
  intros Hno. apply reduceHandlerClasses_is_Some. intros c type Hc Hin.
  apply registrations_elem_of in Hin as [Hin|[-> _]].
  - apply Hno, getAllHandledEventTypes_spec. by exists c.
  - unfold Object_prototype_names. rewrite !not_elem_of_cons.
    repeat split; try done. apply not_elem_of_nil.
Qed.

Lemma createBuildEventHandlers_lookup eventHandlerClasses build firstId handlers key :
  createBuildEventHandlers eventHandlerClasses build firstId = Some handlers →
  handlers !! key
  = extend None (registered key build firstId eventHandlerClasses).
Proof.
  intros Hcreate.
  by rewrite (reduceHandlerClasses_lookup _ _ _ _ _ Hcreate), lookup_empty.
Qed.

Lemma registered_elem_of handler key build id eventHandlerClasses :
  handler ∈ registered key build id eventHandlerClasses →
  handlerClass handler ∈ eventHandlerClasses
  ∧ key ∈ registrations (handlerClass handler)
  ∧ handlerBuild handler = build.
Proof.
  revert id. induction eventHandlerClasses as [|c cs IH]; intros id; simpl.
  - by rewrite elem_of_nil.
  - rewrite elem_of_app. intros [Hin|Hin].
    + apply elem_of_replicate in Hin as [-> Hn]. simpl.
      split_and!; [by left| |done].
      destruct (decide (key ∈ registrations c)) as [|Hno]; [done|].
      by apply times_zero in Hno.
    + destruct (IH _ Hin) as (? & ? & ?). split_and!; [by right|done|done].
Qed.

Lemma registered_nil key build id eventHandlerClasses :
  registered key build id eventHandlerClasses = []
  ↔ ∀ c, c ∈ eventHandlerClasses → key ∉ registrations c.
Proof.
  revert id. induction eventHandlerClasses as [|c cs IH]; intros id; simpl.
  - split; [|done]. intros _ c. by rewrite elem_of_nil.
  - rewrite app_nil, IH. split.
    + intros [Hrep Hcs] c' Hc'. apply elem_of_cons in Hc' as [->|Hc'];
        [|by apply Hcs].
      apply times_zero. by destruct (times key (registrations c)).
    + intros Hno. split; [|intros c' Hc'; apply Hno; by right].
      assert (times key (registrations c) = 0%nat) as ->; [|done].
      apply times_zero, Hno. by left.
Qed.

(** When no class declares [oncomplete], the list kept under the key
    [complete] holds the instances that have a [complete] method, once
    each. *)
Lemma registered_complete build id eventHandlerClasses :
  no_oncomplete eventHandlerClasses →
  registered "complete" build id eventHandlerClasses
  = finalizable build id eventHandlerClasses.
Proof.
  revert id. induction eventHandlerClasses as [|c cs IH]; intros id Hno; [done|].
  simpl. rewrite IH by (intros c' Hc'; apply Hno; by right). f_equal.
  unfold registrations. rewrite times_app.
  assert (times "complete" (getHandledEventTypesForHandlerClass c) = 0%nat) as ->.
  { apply times_zero. rewrite getHandledEventTypesForHandlerClass_spec.
    apply Hno. by left. }
  by destruct (includes (prototypeNames c) "complete").
Qed.

Lemma finalizable_elem_of handler build id eventHandlerClasses :
  handler ∈ finalizable build id eventHandlerClasses →
  handlerClass handler ∈ eventHandlerClasses
  ∧ "complete" ∈ prototypeNames (handlerClass handler)
  ∧ handlerBuild handler = build
  ∧ id ≤ handlerId handler < id + length eventHandlerClasses.
Proof.
  revert id. induction eventHandlerClasses as [|c cs IH]; intros id; simpl.
  - by rewrite elem_of_nil.
  - rewrite elem_of_app. intros [Hin|Hin].
    + unfold includes in Hin. case_bool_decide as Hc; [|by apply elem_of_nil in Hin].
      apply list_elem_of_singleton in Hin as ->. simpl.
      split_and!; [by left|done|done|lia|simpl; lia].
    + destruct (IH _ Hin) as (? & ? & ? & ?).
      split_and!; [by right|done|done|lia|simpl; lia].
Qed.

(** The instances are distinct objects. *)
Lemma finalizable_NoDup build id eventHandlerClasses :
  NoDup (finalizable build id eventHandlerClasses).
Proof.
  revert id. induction eventHandlerClasses as [|c cs IH]; intros id; simpl.
  - apply NoDup_nil_2.
  - apply NoDup_app. split_and!; [| |apply IH].
    + destruct (includes _ _); [apply NoDup_singleton|apply NoDup_nil_2].
    + intros x Hx Hin. apply finalizable_elem_of in Hin as (_ & _ & _ & Hid).
      destruct (includes _ _); [|by apply elem_of_nil in Hx].
      apply list_elem_of_singleton in Hx as ->. simpl in Hid. lia.
Qed.

(** One instance at most per class. *)
Lemma finalizable_length build id eventHandlerClasses :
  length (finalizable build id eventHandlerClasses)
  = length (filter (λ c, "complete" ∈ prototypeNames c) eventHandlerClasses).
Proof.
  revert id. induction eventHandlerClasses as [|c cs IH]; intros id; [done|].
  simpl. rewrite length_app, IH. unfold includes. case_bool_decide.
  - by rewrite filter_cons_True.
  - by rewrite filter_cons_False.
Qed.

(** ** Calling the handlers *)

Lemma forEach_invoke_all method argument handlers w :
  Forall (λ handler, method ∈ prototypeNames (handlerClass handler)) handlers →
  forEach_invoke method argument handlers w
  = set_invocations (invocations w ++ calls method argument handlers) w.
Proof.
  revert w. induction handlers as [|h hs IH]; intros w Hall; simpl.
  - unfold calls. simpl. rewrite app_nil_r. by destruct w.
  - apply Forall_cons in Hall as [Hh Hall]. unfold invoke, includes.
    rewrite bool_decide_eq_true_2 by done. rewrite IH by done.
    unfold set_invocations, invoked, calls. simpl.
    by rewrite <- app_assoc.
Qed.

(** Whatever the handlers are, [forEach] touches nothing but the record of
    calls and errors, and the calls it adds are calls of [method]. *)
Lemma forEach_invoke_frame method argument handlers w :
  same_scheduling w (forEach_invoke method argument handlers w)
  ∧ ∃ called, invocations (forEach_invoke method argument handlers w)
              = invocations w ++ calls method argument called.
Proof.
  revert w. induction handlers as [|h hs IH]; intros w; simpl.
  - split; [done|]. exists []. by rewrite app_nil_r.
  - unfold invoke. destruct (includes _ _).
    + destruct (IH (invoked {| receiver := h; method := method;
                               argument := argument |} w))
        as [(?&?&?&?&?&?&?) [called Hcalled]].
      split; [done|]. exists (h :: called). rewrite Hcalled. simpl.
      by rewrite <- app_assoc.
    + split; [done|]. exists []. simpl. by rewrite app_nil_r.
Qed.

Lemma finalizations_calls name argument handlers (l : list Invocation) w :
  invocations w = l ++ calls name argument handlers →
  finalizations w
  = (receiver <$> filter (λ i, method i = "complete") l)
    ++ if bool_decide (name = "complete") then handlers else [].
Proof.
  intros Hw. unfold finalizations. rewrite Hw, filter_app, fmap_app. f_equal.
  clear Hw. unfold calls. induction handlers as [|h hs IH].
  - by case_bool_decide.
  - rewrite fmap_cons. case_bool_decide as Hm.
    + rewrite filter_cons_True by done. rewrite fmap_cons. by rewrite IH.
    + by rewrite filter_cons_False.
Qed.

(** ** The callbacks of a per-build stream *)

Section BuildStreamFacts.
Variable this : BuildProcessor.
Variable buildEventHandlers : gmap string (list Handler).

Lemma on_is_not_complete (type : string) : "on" +:+ type ≠ "complete".
Proof. done. Qed.

(** An event calls no [complete] and leaves the scheduler alone. *)
Lemma build_onevent_frame payload w :
  same_scheduling w (build_onevent this buildEventHandlers payload w)
  ∧ finalizations (build_onevent this buildEventHandlers payload w)
    = finalizations w.
Proof.
  unfold build_onevent. destruct (Set_has _ _); [|done].
  destruct (buildEventHandlers !! eventType payload) as [l|]; [|done].
  destruct (forEach_invoke_frame ("on" +:+ eventType payload) (Some payload) l w)
    as [Hsame [called Hcalled]].
  split; [done|]. rewrite (finalizations_calls _ _ _ _ _ Hcalled).
  rewrite bool_decide_eq_false_2 by apply on_is_not_complete.
  by rewrite app_nil_r.
Qed.

(** What a notification of the stream does to the state of the
    processor: only the 204 status and [BuildEvent] reach a callback. *)
Lemma notify_build_stream c w n :
  (notify (buildStreamConfiguration this buildEventHandlers) (c, w) n).2
  = match n with
    | Opened => w
    | Errored status _ =>
        if bool_decide (status = Some STATUS_COMPLETE)
        then build_oncomplete buildEventHandlers w else w
    | Named name payload =>
        if bool_decide (name = "BuildEvent")
        then build_onevent this buildEventHandlers payload w else w
    end.
Proof.
  destruct n as [|status rs|name payload]; simpl.
  - done.
  - unfold stream_onerror. by case_bool_decide.
  - unfold stream_onevent. simpl. case_bool_decide as Hn.
    + subst name. by rewrite filter_cons_True.
    + by rewrite filter_cons_False.
Qed.

Lemma notify_build_stream_frame c w n :
  is_completion n = false →
  let w' := (notify (buildStreamConfiguration this buildEventHandlers) (c, w) n).2 in
  same_scheduling w w' ∧ finalizations w' = finalizations w.
Proof.
  intros Hn w'. subst w'. rewrite notify_build_stream.
  destruct n as [|status rs|name payload]; simpl in *.
  - done.
  - by rewrite Hn.
  - case_bool_decide; [apply build_onevent_frame|done].
Qed.
End BuildStreamFacts.

Lemma set_invocations_nil w : set_invocations (invocations w ++ []) w = w.
Proof. rewrite app_nil_r. by destruct w. Qed.

(** On clean completion the slot is given back and [complete] is called on
    each instance that has it, in the order of the classes. *)
Lemma build_oncomplete_finalizes eventHandlerClasses build firstId handlers w :
  no_oncomplete eventHandlerClasses →
  createBuildEventHandlers eventHandlerClasses build firstId = Some handlers →
  build_oncomplete handlers w
  = set_invocations
      (invocations w
         ++ calls "complete" None (finalizable build firstId eventHandlerClasses))
      (finishedProcessingBuild w).
Proof.
  intros Hno Hcreate. unfold build_oncomplete.
  rewrite (createBuildEventHandlers_lookup _ _ _ _ _ Hcreate).
  rewrite registered_complete by done.
  destruct (finalizable build firstId eventHandlerClasses) as [|h hs] eqn:Hf.
  - simpl. by rewrite <- (set_invocations_nil (finishedProcessingBuild w)) at 1.
  - simpl extend. cbv iota. rewrite forEach_invoke_all; [done|].
    apply Forall_forall. intros x Hx. rewrite <- Hf in Hx.
    by apply finalizable_elem_of in Hx as (_ & ? & _).
Qed.

(** * The claims about createServerSideEventStream *)






(** C6. Every successful open sets the retry counter to zero, whatever came
    before it: as many transient errors as one likes followed by an open
    leave it at zero. The counter is changed by nothing else than an open
    and an error that has a status (other than 204), seen while connecting
    with the counter below the ceiling, which adds one; an error without a
    status never changes it. *)
Theorem retries_reset_by_open_counted_by_status {S D} (cfg : Configuration S D) :
  (∀ ns cs, retries (deliver cfg (ns ++ [Opened]) cs).1 = Some 0%Z)
  ∧ (∀ cs rs, retries (notify cfg cs (Errored None rs)).1 = retries cs.1)
  ∧ (∀ cs n, retries (notify cfg cs n).1 ≠ retries cs.1 →
       n = Opened
       ∨ ∃ status, n = Errored (Some status) CONNECTING
                   ∧ status ≠ STATUS_COMPLETE
                   ∧ retries (notify cfg cs n).1 = js_incr (retries cs.1))
  ∧ (∀ cs status r,
       status ≠ STATUS_COMPLETE → retries cs.1 = Some r →
       (0 < _maxRetries cfg)%Z → (r < _maxRetries cfg)%Z →
       retries (notify cfg cs (transient status)).1 = Some (r + 1)%Z).
Proof.
  split_and!.
  - intros ns cs. by rewrite deliver_app, deliver_cons, deliver_nil.
  - intros cs rs.
    destruct (notify_retries_cases cfg cs (Errored None rs))
      as [Hsame|[Hopen|(status & Hn & _)]]; [done|done|done].
  - intros cs n Hne.
    destruct (notify_retries_cases cfg cs n)
      as [Hsame|[Hopen|(status & Hn & Hs & _ & Hincr)]]; [done|by left|].
    right. by exists status.
  - intros cs status r Hs Hr Hmax Hlt. unfold transient.
    rewrite (notify_error_below cfg cs (Some status) r)
      by (done || congruence). done.
Qed.

Lemma retries_reset_by_open_counted_by_status_witness :
  let cfg := retrying 3 in
  retries (deliver cfg ([Opened; transient 503; transient 503] ++ [Opened])
             (createServerSideEventStream cfg, tt)).1 = Some 0%Z
  ∧ retries (notify cfg (deliver cfg [Opened] (createServerSideEventStream cfg, tt))
               (transient 503)).1 = Some (0 + 1)%Z.
Proof.
  destruct (retries_reset_by_open_counted_by_status (retrying 3))
    as (Hopen & _ & _ & Hcount).
  split.
  - apply Hopen.
  - apply Hcount; [discriminate|reflexivity|reflexivity|reflexivity].
Defined.

(** C10. The retry counter has no value until the first successful open.
    So whatever the configured ceiling, an error (one that is not the 204
    status) that arrives in the connecting state before any open finds the
    test [retries < _maxRetries] false and closes the stream at once, with
    or without a status; the stream stays closed. *)
Theorem error_before_first_open_closes {S D} (cfg : Configuration S D) (s : S)
    (before : list (Notification D)) (status : option Z) :
  Opened ∉ before →
  status ≠ Some STATUS_COMPLETE →
  let cs := deliver cfg before (createServerSideEventStream cfg, s) in
  let cs' := notify cfg cs (Errored status CONNECTING) in
  retries (createServerSideEventStream cfg) = None
  ∧ retries cs.1 = None
  ∧ js_lt (retries cs.1) (_maxRetries cfg) = false
  ∧ closed cs'.1 = true
  ∧ journal cs'.1
    = journal cs.1 ++ [StreamClose; LogMaxRetriesReached; CalledOnError status]
  ∧ ∀ later, closed (deliver cfg later cs').1 = true.
Proof.
  intros Hno Hstatus cs cs'. subst cs cs'.
  assert (retries (deliver cfg before (createServerSideEventStream cfg, s)).1
          = None) as Hr by by apply deliver_unopened_retries.
  rewrite notify_error_closes by (done || by rewrite Hr).
  rewrite Hr. split_and!; try done.
  - simpl. by rewrite <- !app_assoc.
  - intros later. by apply deliver_closed.
Qed.

Lemma error_before_first_open_closes_witness :
  let cfg := retrying 100 in
  closed (notify cfg (deliver cfg [] (createServerSideEventStream cfg, tt))
            (Errored (Some 503%Z) CONNECTING)).1 = true.
Proof.
  destruct (error_before_first_open_closes (retrying 100) tt [] (Some 503%Z))
    as (_ & _ & _ & Hclosed & _).
  - apply not_elem_of_nil.
  - discriminate.
  - exact Hclosed.
Defined.


(** ** The scheduler: what each operation changes *)

Section SchedulerFacts.
Variable this : BuildProcessor.

Lemma processBuild_fields build w :
  let w' := processBuild this build w in
  pendingBuilds w' = pendingBuilds w
  ∧ numBuildsInProcess w' = (numBuildsInProcess w + 1)%Z
  ∧ timeouts w' = timeouts w
  ∧ listener w' = listener w
  ∧ processed w' = processed w ++ [build]
  ∧ invocations w' = invocations w.
Proof. unfold processBuild. by destruct (createBuildEventHandlers _ _ _). Qed.

Lemma processPendingBuilds_takes_head w build rest :
  pendingBuilds w = build :: rest →
  (numBuildsInProcess w < maxConcurrentBuildsToProcess this)%Z →
  processPendingBuilds this w = processBuild this build (set_pendingBuilds rest w).
Proof.
  intros Hq Hn. unfold processPendingBuilds. rewrite Hq.
  by rewrite (proj2 (Z.ltb_lt _ _) Hn).
Qed.

Lemma processPendingBuilds_idle w :
  pendingBuilds w = []
  ∨ (maxConcurrentBuildsToProcess this ≤ numBuildsInProcess w)%Z →
  processPendingBuilds this w = w.
Proof.
  intros [Hq|Hn]; unfold processPendingBuilds.
  - by rewrite Hq.
  - destruct (pendingBuilds w); [done|].
    by rewrite (proj2 (Z.ltb_ge _ _) Hn).
Qed.

(** Every admission attempt keeps the count within the limit and keeps
    the order of the builds. *)
Lemma processPendingBuilds_fields w :
  let w' := processPendingBuilds this w in
  processed w' ++ pendingBuilds w' = processed w ++ pendingBuilds w
  ∧ timeouts w' = timeouts w
  ∧ listener w' = listener w
  ∧ ((numBuildsInProcess w' = numBuildsInProcess w
      ∧ pendingBuilds w' = pendingBuilds w
      ∧ (pendingBuilds w = []
         ∨ maxConcurrentBuildsToProcess this ≤ numBuildsInProcess w))
     ∨ (numBuildsInProcess w' = numBuildsInProcess w + 1
        ∧ numBuildsInProcess w < maxConcurrentBuildsToProcess this
        ∧ ∃ build, pendingBuilds w = build :: pendingBuilds w'))%Z.
Proof.
  unfold processPendingBuilds. destruct (pendingBuilds w) as [|build rest] eqn:Hq.
  - rewrite Hq. split_and!; try done. left. split_and!; try done. by left.
  - destruct (Z.ltb_spec (numBuildsInProcess w) (maxConcurrentBuildsToProcess this)).
    + destruct (processBuild_fields build (set_pendingBuilds rest w))
        as (Hp & Hn & Ht & Hl & Hd & _).
      rewrite Hp, Hn, Ht, Hl, Hd. simpl. rewrite <- app_assoc.
      split_and!; try done. right. split_and!; try done. by exists build.
    + rewrite Hq. split_and!; try done. left. split_and!; try done. by right.
Qed.

Lemma enqueue_fields build w :
  let w' := enqueue this build w in
  processed w' ++ pendingBuilds w' = processed w ++ pendingBuilds w ++ [build]
  ∧ timeouts w' = timeouts w
  ∧ listener w' = listener w
  ∧ (numBuildsInProcess w' = numBuildsInProcess w
     ∨ (numBuildsInProcess w' = numBuildsInProcess w + 1
        ∧ numBuildsInProcess w < maxConcurrentBuildsToProcess this))%Z.
Proof.
  unfold enqueue.
  destruct (processPendingBuilds_fields
              (set_pendingBuilds (pendingBuilds w ++ [build]) w))
    as (Ho & Ht & Hl & Hn).
  rewrite Ho, Ht, Hl. simpl in *. split_and!; try done.
  destruct Hn as [(-> & _)|(-> & ? & _)]; [by left|by right].
Qed.

Lemma build_oncomplete_fields handlers w :
  let w' := build_oncomplete handlers w in
  pendingBuilds w' = pendingBuilds w
  ∧ numBuildsInProcess w' = (numBuildsInProcess w - 1)%Z
  ∧ timeouts w' = S (timeouts w)
  ∧ buildStreams w' = buildStreams w
  ∧ listener w' = listener w
  ∧ processed w' = processed w.
Proof.
  unfold build_oncomplete. destruct (handlers !! "complete") as [l|]; [|done].
  by destruct (forEach_invoke_frame "complete" None l (finishedProcessingBuild w))
    as [(-> & -> & -> & -> & -> & _ & ->) _].
Qed.

(** What a notification of the top-level stream does to the state of the
    processor: only a [Build] event reaches a callback that changes it. *)
Lemma notify_listener c w n :
  (notify (listenerConfiguration this) (c, w) n).2
  = match n with
    | Named name build =>
        if bool_decide (name = "Build") then enqueue this build w else w
    | _ => w
    end.
Proof.
  destruct n as [|status rs|name build]; simpl.
  - done.
  - unfold stream_onerror. by case_bool_decide.
  - unfold stream_onevent. simpl. case_bool_decide as Hn.
    + subst name. by rewrite filter_cons_True.
    + by rewrite filter_cons_False.
Qed.

(** One input of the event loop, as seen by the scheduler. *)
Lemma step_fields w input :
  let w' := step this w input in
  (is_Some (listener w) → is_Some (listener w'))
  ∧ (is_Some (listener w) →
       processed w' ++ pendingBuilds w'
       = processed w ++ pendingBuilds w ++ published_by input)
  ∧ ((numBuildsInProcess w' ≤ numBuildsInProcess w)
     ∨ (numBuildsInProcess w' = numBuildsInProcess w + 1
        ∧ numBuildsInProcess w < maxConcurrentBuildsToProcess this))%Z.
Proof.
  destruct input as [n| |i n]; simpl.
  - destruct (listener w) as [c|] eqn:Hl; simpl.
    + rewrite notify_listener.
      destruct n as [|status rs|name build]; simpl;
        rewrite ?app_nil_r; try (split_and!; [done|done|left; lia]).
      case_bool_decide; [|rewrite app_nil_r; split_and!; [done|done|left; lia]].
      destruct (enqueue_fields build w) as (Ho & _ & _ & Hn).
      split_and!; [done|done|]. destruct Hn as [->|[-> ?]]; [left; lia|by right].
    + split_and!; [by intros []|by intros []|left; lia].
  - rewrite app_nil_r. destruct (timeouts w) as [|k]; [split_and!; [done|done|left; lia]|].
    destruct (processPendingBuilds_fields (set_timeouts k w)) as (Ho & _ & Hl & Hn).
    rewrite Ho, Hl. simpl in *. split_and!; [done|done|].
    destruct Hn as [(-> & _)|(-> & ? & _)]; [left; lia|by right].
  - rewrite app_nil_r.
    destruct (buildStreams w !! i) as [s|]; [|split_and!; [done|done|left; lia]].
    simpl. rewrite notify_build_stream.
    destruct n as [|status rs|name payload]; simpl.
    + split_and!; [done|done|left; lia].
    + case_bool_decide; [|split_and!; [done|done|left; lia]].
      destruct (build_oncomplete_fields (streamHandlers s) w)
        as (-> & -> & _ & _ & -> & ->).
      split_and!; [done|done|left; lia].
    + case_bool_decide; [|split_and!; [done|done|left; lia]].
      destruct (build_onevent_frame this (streamHandlers s) payload w)
        as [(-> & -> & _ & _ & -> & _ & ->) _].
      split_and!; [done|done|left; lia].
Qed.
End SchedulerFacts.

Section EventLoopFacts.
Variable this : BuildProcessor.

Lemma run_cons w input inputs :
  run this w (input :: inputs) = run this (step this w input) inputs.
Proof. done. Qed.


Lemma run_bound w inputs :
  (numBuildsInProcess w ≤ maxConcurrentBuildsToProcess this)%Z →
  (numBuildsInProcess (run this w inputs) ≤ maxConcurrentBuildsToProcess this)%Z.
Proof.
  revert w. induction inputs as [|input inputs IH]; intros w Hw; [done|].
  rewrite run_cons. apply IH.
  destruct (step_fields this w input) as (_ & _ & [Hn|[Hn Hlt]]); lia.
Qed.

Lemma run_order w inputs :
  is_Some (listener w) →
  is_Some (listener (run this w inputs))
  ∧ processed (run this w inputs) ++ pendingBuilds (run this w inputs)
    = processed w ++ pendingBuilds w ++ published inputs.
Proof.
  revert w. induction inputs as [|input inputs IH]; intros w Hl.
  - split; [done|]. unfold published. simpl. by rewrite app_nil_r.
  - rewrite run_cons.
    destruct (step_fields this w input) as (Hl' & Ho & _).
    destruct (IH (step this w input) (Hl' Hl)) as [Hl'' Ho'].
    split; [done|]. rewrite Ho', app_assoc, (Ho Hl). unfold published. simpl.
    by rewrite <- !app_assoc.
Qed.

(** Each release sets a timer of its own, so the single admission of an
    attempt is enough: when no timer is left, no queued build could be
    taken in. *)
Lemma step_idle w input :
  (pendingBuilds w = []
   ∨ maxConcurrentBuildsToProcess this - numBuildsInProcess w ≤ Z.of_nat (timeouts w))%Z →
  let w' := step this w input in
  (pendingBuilds w' = []
   ∨ maxConcurrentBuildsToProcess this - numBuildsInProcess w' ≤ Z.of_nat (timeouts w'))%Z.
Proof.
  intros Hw. destruct input as [n| |i n]; simpl.
  - destruct (listener w) as [c|]; [|done]. simpl. rewrite notify_listener.
    destruct n as [|status rs|name build]; try done.
    case_bool_decide; [|done]. unfold enqueue.
    destruct (processPendingBuilds_fields this
                (set_pendingBuilds (pendingBuilds w ++ [build]) w))
      as (_ & Ht & _ & Hn).
    rewrite Ht. simpl in *.
    destruct Hn as [(Hn & Hq & [Hnil|Hfull])|(Hn & Hlt & b & Hq)].
    + by destruct (pendingBuilds w).
    + right. lia.
    + destruct Hw as [Hw|Hw]; [|right; lia].
      left. rewrite Hw in *. simpl in *. by injection Hq as _ <-.
  - destruct (timeouts w) as [|k] eqn:Hk; [by rewrite Hk|].
    destruct (processPendingBuilds_fields this (set_timeouts k w))
      as (_ & Ht & _ & Hn).
    rewrite Ht. simpl in *.
    destruct Hn as [(Hn & Hq & [Hnil|Hfull])|(Hn & Hlt & b & Hq)].
    + left. by rewrite Hq.
    + right. lia.
    + destruct Hw as [Hw|Hw]; [by rewrite Hw in Hq|right; lia].
  - destruct (buildStreams w !! i) as [s|]; [|done].
    simpl. rewrite notify_build_stream.
    destruct n as [|status rs|name payload]; simpl; try done.
    + case_bool_decide; [|done].
      destruct (build_oncomplete_fields (streamHandlers s) w)
        as (-> & -> & -> & _).
      destruct Hw as [Hw|Hw]; [by left|right; lia].
    + case_bool_decide; [|done].
      by destruct (build_onevent_frame this (streamHandlers s) payload w)
        as [(-> & -> & -> & _) _].
Qed.

Lemma run_idle w inputs :
  (pendingBuilds w = []
   ∨ maxConcurrentBuildsToProcess this - numBuildsInProcess w ≤ Z.of_nat (timeouts w))%Z →
  let w' := run this w inputs in
  (pendingBuilds w' = []
   ∨ maxConcurrentBuildsToProcess this - numBuildsInProcess w' ≤ Z.of_nat (timeouts w'))%Z.
Proof.
  revert w. induction inputs as [|input inputs IH]; intros w Hw; [done|].
  simpl. apply IH. by apply step_idle.
Qed.

Lemma no_admissible_build_left_when_idle inputs :
  let w := run this (start this initial) inputs in
  timeouts w = 0%nat →
  pendingBuilds w = []
  ∨ (maxConcurrentBuildsToProcess this ≤ numBuildsInProcess w)%Z.
Proof.
  intros w Ht. subst w.
  destruct (run_idle (start this initial) inputs) as [Hq|Hn]; [by left|by left|].
  right. rewrite Ht in Hn. lia.
Qed.
End EventLoopFacts.

(** * The claims about the scheduler *)

(** C5. With a limit [N] that is not negative, whatever the event loop runs
    (builds published in any number, also in a burst of more than [N];
    completions of per-build streams; timers; any other notification),
    [numBuildsInProcess] never exceeds [N]; and each operation of the
    scheduler keeps it so. *)
Theorem numBuildsInProcess_never_exceeds_limit (url : string) (N : Z)
    (classes : list HandlerClass) (inputs : list Input) :
  (0 ≤ N)%Z →
  let this := new_BuildProcessor url N classes in
  (numBuildsInProcess (run this (start this initial) inputs) ≤ N)%Z
  ∧ ∀ w build, (numBuildsInProcess w ≤ N)%Z →
      (numBuildsInProcess (enqueue this build w) ≤ N)%Z
      ∧ (numBuildsInProcess (processPendingBuilds this w) ≤ N)%Z
      ∧ (numBuildsInProcess (finishedProcessingBuild w) ≤ N)%Z.
Proof.
  intros HN this. split.
  - by apply (run_bound this).
  - intros w build Hw. split_and!.
    + destruct (enqueue_fields this build w) as (_ & _ & _ & [->|[-> Hlt]]);
        [done|]. simpl in Hlt. lia.
    + destruct (processPendingBuilds_fields this w)
        as (_ & _ & _ & [(-> & _)|(-> & Hlt & _)]); [done|]. simpl in Hlt. lia.
    + simpl. lia.
Qed.

Lemma numBuildsInProcess_never_exceeds_limit_witness :
  let burst :=
    (λ id, ListenerNotification (Named "Build" {| buildId := id |}))
      <$> ["a"; "b"; "c"; "d"; "e"; "f"; "g"; "h"] in
  (numBuildsInProcess (run sample (start sample initial) burst) ≤ 6)%Z.
Proof.
  destruct (numBuildsInProcess_never_exceeds_limit GRADLE_ENTERPRISE_SERVER_URL
              6 BUILD_EVENT_HANDLERS
              ((λ id, ListenerNotification (Named "Build" {| buildId := id |}))
                 <$> ["a"; "b"; "c"; "d"; "e"; "f"; "g"; "h"]))
    as [Hbound _].
  - lia.
  - exact Hbound.
Defined.

(** C7. An admission attempt made while the queue is not empty and the
    count is below the limit takes the head of the queue, adds one to the
    count and hands that build to [processBuild]; made otherwise, it does
    nothing. So at every moment the builds handed over, followed by the
    builds still queued, are the builds published, in the order they were
    published: builds are taken in first in, first out, and none is
    taken in while an earlier one waits. *)
Theorem takes_head_of_queue_in_order (this : BuildProcessor) :
  (∀ w build rest,
     pendingBuilds w = build :: rest →
     (numBuildsInProcess w < maxConcurrentBuildsToProcess this)%Z →
     let w' := processPendingBuilds this w in
     w' = processBuild this build (set_pendingBuilds rest w)
     ∧ pendingBuilds w' = rest
     ∧ numBuildsInProcess w' = (numBuildsInProcess w + 1)%Z
     ∧ processed w' = processed w ++ [build])
  ∧ (∀ w,
       pendingBuilds w = []
       ∨ (maxConcurrentBuildsToProcess this ≤ numBuildsInProcess w)%Z →
       processPendingBuilds this w = w)
  ∧ (∀ inputs,
       let w := run this (start this initial) inputs in
       processed w ++ pendingBuilds w = published inputs).
Proof.
  split_and!.
  - intros w build rest Hq Hn w'. subst w'.
    rewrite (processPendingBuilds_takes_head this w build rest Hq Hn).
    by destruct (processBuild_fields this build (set_pendingBuilds rest w))
      as (-> & -> & _ & _ & -> & _).
  - apply processPendingBuilds_idle.
  - intros inputs w. subst w.
    by destruct (run_order this (start this initial) inputs) as [_ ->].
Qed.

Lemma takes_head_of_queue_in_order_witness :
  let queued :=
    set_pendingBuilds [build1; {| buildId := "later" |}] (start sample initial) in
  pendingBuilds (processPendingBuilds sample queued) = [ {| buildId := "later" |} ]
  ∧ processed (processPendingBuilds sample queued) = processed queued ++ [build1].
Proof.
  destruct (takes_head_of_queue_in_order sample) as (Htake & _ & _).
  destruct (Htake (set_pendingBuilds [build1; {| buildId := "later" |}]
                      (start sample initial))
              build1 [ {| buildId := "later" |} ])
    as (_ & Hq & _ & Hp).
  - reflexivity.
  - reflexivity.
  - split; [exact Hq|exact Hp].
Defined.

(** ** A per-build stream that never completes *)

Lemma undisturbed_refl i w : undisturbed i w w.
Proof. by unfold undisturbed. Qed.

Lemma undisturbed_trans i w1 w2 w3 :
  undisturbed i w1 w2 → undisturbed i w2 w3 → undisturbed i w1 w3.
Proof.
  intros (Hq & Hn & Ht & Hl & Hp & Hf & Hlen & Hj)
         (Hq' & Hn' & Ht' & Hl' & Hp' & Hf' & Hlen' & Hj').
  unfold undisturbed. rewrite Hq', Hn', Ht', Hl', Hp', Hf', Hlen'.
  split_and!; try done. intros j Hne. by rewrite Hj', Hj.
Qed.

Lemma step_undisturbed this w i (n : Notification BuildEventPayload) :
  is_completion n = false →
  undisturbed i w (step this w (BuildStreamNotification i n)).
Proof.
  intros Hn. simpl. destruct (buildStreams w !! i) as [s|] eqn:Hs;
    [|apply undisturbed_refl].
  destruct (notify_build_stream_frame this (streamHandlers s)
              (streamConnection s) w n Hn)
    as [(Hq & Hnum & Ht & Hstreams & Hl & _ & Hp) Hf].
  unfold undisturbed. simpl. rewrite Hstreams.
  split_and!; try done.
  - by rewrite length_alter.
  - intros j Hne. by rewrite list_lookup_alter_ne.
Qed.

Lemma run_undisturbed this w i (ns : list (Notification BuildEventPayload)) :
  Forall (λ n, is_completion n = false) ns →
  undisturbed i w (run this w (BuildStreamNotification i <$> ns)).
Proof.
  intros Hns. revert w. induction Hns as [|n ns Hn _ IH]; intros w.
  - apply undisturbed_refl.
  - rewrite fmap_cons, run_cons.
    eapply undisturbed_trans; [by apply step_undisturbed|apply IH].
Qed.

(** The count of builds in process goes down on one kind of input only:
    the report of clean completion of a per-build stream. *)
Lemma step_release this w input :
  (numBuildsInProcess (step this w input) < numBuildsInProcess w)%Z →
  ∃ i rs, input = BuildStreamNotification i (Errored (Some STATUS_COMPLETE) rs).
Proof.
  destruct input as [n| |i n]; simpl.
  - destruct (listener w) as [c|]; [|lia]. simpl. rewrite notify_listener.
    destruct n as [|status rs|name build]; try lia.
    case_bool_decide; [|lia].
    destruct (enqueue_fields this build w) as (_ & _ & _ & [->|[-> _]]); lia.
  - destruct (timeouts w) as [|k]; [lia|].
    destruct (processPendingBuilds_fields this (set_timeouts k w))
      as (_ & _ & _ & [(-> & _)|(-> & _)]); simpl; lia.
  - destruct (buildStreams w !! i) as [s|]; [|lia]. simpl.
    rewrite notify_build_stream. destruct n as [|status rs|name payload].
    + lia.
    + case_bool_decide as Hs; [|lia]. subst status. intros _. by exists i, rs.
    + case_bool_decide; [|lia].
      destruct (build_onevent_frame this (streamHandlers s) payload w)
        as [(_ & -> & _) _]. lia.
Qed.

(** * The claims about per-build streams *)

(** C2, as stated, fails: a build of the sample is taken in, its stream
    opens and then fails 101 times in a row against the ceiling of 100
    retries. The stream is closed, yet the count of builds in process is
    still one and no timer was set to take in a pending build. *)
Lemma terminal_failure_keeps_the_slot :
  let inProcess :=
    run sample (start sample initial)
        [ListenerNotification (Named "Build" build1)] in
  let failed :=
    run sample inProcess
        (BuildStreamNotification 0
           <$> Opened :: replicate 101 (transient 503)) in
  numBuildsInProcess inProcess = 1%Z
  ∧ (closed ∘ streamConnection <$> buildStreams failed) = [true]
  ∧ completions (Opened :: replicate 101 (@transient BuildEventPayload 503)) = 0%nat
  ∧ numBuildsInProcess failed = 1%Z
  ∧ timeouts failed = 0%nat.
Proof. vm_compute. done. Qed.

(** C2, amended. Notifications of a per-build stream among which there is
    no clean completion, and so all those of a stream that fails for good,
    call no [complete] and leave the scheduler as it was: the count of
    builds in process is not decremented, no timer is set, the queue and
    the builds handed over are the same, and so is every other stream. The
    slot of the failed build stays taken: nothing but the clean completion
    of a stream ever decrements the count. *)
Theorem failed_stream_changes_nothing (this : BuildProcessor) (w : World)
    (i : nat) (ns : list (Notification BuildEventPayload)) :
  Forall (λ n, is_completion n = false) ns →
  let w' := run this w (BuildStreamNotification i <$> ns) in
  numBuildsInProcess w' = numBuildsInProcess w
  ∧ timeouts w' = timeouts w
  ∧ pendingBuilds w' = pendingBuilds w
  ∧ processed w' = processed w
  ∧ finalizations w' = finalizations w
  ∧ length (buildStreams w') = length (buildStreams w)
  ∧ (∀ j, j ≠ i → buildStreams w' !! j = buildStreams w !! j)
  ∧ ∀ w0 input,
      (numBuildsInProcess (step this w0 input) < numBuildsInProcess w0)%Z →
      ∃ j rs,
        input = BuildStreamNotification j (Errored (Some STATUS_COMPLETE) rs).
Proof.
  intros Hns w'. subst w'.
  destruct (run_undisturbed this w i ns Hns)
    as (-> & -> & -> & _ & -> & -> & -> & ?).
  split_and!; try done. apply step_release.
Qed.

Lemma failed_stream_changes_nothing_witness :
  let inProcess :=
    run sample (start sample initial)
        [ListenerNotification (Named "Build" build1)] in
  let failed :=
    run sample inProcess (BuildStreamNotification 0 <$> [transient 503]) in
  (closed ∘ streamConnection <$> buildStreams failed) = [true]
  ∧ numBuildsInProcess failed = numBuildsInProcess inProcess
  ∧ finalizations failed = finalizations inProcess.
Proof.
  split; [vm_compute; reflexivity|].
  destruct (failed_stream_changes_nothing sample
              (run sample (start sample initial)
                   [ListenerNotification (Named "Build" build1)])
              0 [transient 503])
    as (Hn & _ & _ & _ & Hf & _).
  - repeat constructor.
  - split; [exact Hn|exact Hf].
Defined.

(** ** Clean completion of a per-build stream *)

Lemma completions_cons {D} (n : Notification D) ns :
  completions (n :: ns)
  = ((if is_completion n then 1 else 0) + completions ns)%nat.
Proof.
  unfold completions. destruct (is_completion n) eqn:Hn.
  - by rewrite filter_cons_True.
  - rewrite filter_cons_False; [done|]. by rewrite Hn.
Qed.

Lemma deliver_finalizations this eventHandlerClasses build firstId handlers
    (ns : list (Notification BuildEventPayload)) c w :
  no_oncomplete eventHandlerClasses →
  createBuildEventHandlers eventHandlerClasses build firstId = Some handlers →
  finalizations (deliver (buildStreamConfiguration this handlers) ns (c, w)).2
  = finalizations w
    ++ mjoin (replicate (completions ns)
                (finalizable build firstId eventHandlerClasses)).
Proof.
  intros Hno Hcreate. revert c w.
  induction ns as [|n ns IH]; intros c w.
  - simpl. by rewrite app_nil_r.
  - rewrite deliver_cons, completions_cons.
    destruct (notify (buildStreamConfiguration this handlers) (c, w) n)
      as [c1 w1] eqn:Hn1.
    rewrite IH.
    assert (w1 = (notify (buildStreamConfiguration this handlers) (c, w) n).2)
      as -> by by rewrite Hn1.
    destruct (is_completion n) eqn:Hn.
    + rewrite notify_build_stream. destruct n as [|status rs|name payload];
        try done. simpl in Hn. rewrite Hn.
      rewrite (build_oncomplete_finalizes _ _ _ _ _ Hno Hcreate).
      rewrite (finalizations_calls "complete" None
                 (finalizable build firstId eventHandlerClasses)
                 (invocations w)) by done.
      simpl. by rewrite <- app_assoc.
    + destruct (notify_build_stream_frame this handlers c w n Hn) as [_ ->].
      done.
Qed.

(** C1. The method [complete] should be called at most once on an
    instance. For a handler class with both an [oncomplete] and a
    [complete] method the code does otherwise: the event type of
    [oncomplete] is the very key kept for the [complete] methods, so the one
    instance of the class is registered twice under it, and a single clean
    completion of the stream calls [complete] on that instance twice. *)
Lemma complete_called_twice_on_one_instance :
  let this :=
    new_BuildProcessor GRADLE_ENTERPRISE_SERVER_URL
      MAX_CONCURRENT_BUILDS_TO_PROCESS [CompletionEventHandler] in
  let w :=
    run this (start this initial)
        [ ListenerNotification (Named "Build" build1);
          BuildStreamNotification 0 Opened;
          BuildStreamNotification 0 (Errored (Some STATUS_COMPLETE) CLOSED) ] in
  let handler :=
    {| handlerId := 0; handlerClass := CompletionEventHandler;
       handlerBuild := build1 |} in
  finalizations w = [handler; handler].
Proof. vm_compute. done. Qed.

(** Away from that collision [complete] is called as it should be. When no
    handler class declares a method called [oncomplete], the notifications
    of the stream of a build call [complete] as follows: each report of
    clean completion calls it once on every instance whose class declares
    it, in the order of the classes, and nothing else calls it, neither an
    open, an event nor an error, terminal or not. So a stream that completes once has [complete] called
    exactly once on each of these instances, which are distinct and as many
    as the classes that declare it; a stream that never completes has it
    called on none. *)
Theorem complete_called_once_per_completion (url : string) (N : Z)
    (classes : list HandlerClass) (build : Build) (firstId : nat)
    (ns : list (Notification BuildEventPayload)) (c : Connection) (w : World) :
  no_oncomplete classes →
  no_inherited classes →
  let this := new_BuildProcessor url N classes in
  ∃ handlers,
    createBuildEventHandlers classes build firstId = Some handlers
    ∧ let w' := (deliver (buildStreamConfiguration this handlers) ns (c, w)).2 in
      let eligible := finalizable build firstId classes in
      finalizations w'
      = finalizations w ++ mjoin (replicate (completions ns) eligible)
      ∧ (completions ns = 0%nat → finalizations w' = finalizations w)
      ∧ (completions ns = 1%nat → finalizations w' = finalizations w ++ eligible)
      ∧ NoDup eligible
      ∧ length eligible
        = length (filter (λ cl, "complete" ∈ prototypeNames cl) classes).
Proof.
  intros Hno Hinh this.
  destruct (createBuildEventHandlers_is_Some classes build firstId Hinh)
    as [handlers Hcreate].
  exists handlers. split; [done|]. intros w' eligible. subst w' eligible.
  rewrite (deliver_finalizations this classes build firstId handlers ns c w
             Hno Hcreate).
  split_and!.
  - done.
  - intros ->. simpl. by rewrite app_nil_r.
  - intros ->. simpl. by rewrite app_nil_r.
  - apply finalizable_NoDup.
  - apply finalizable_length.
Qed.

Lemma no_oncomplete_decide classes :
  bool_decide ("complete" ∉ getAllHandledEventTypes classes) →
  no_oncomplete classes.
Proof. intros H%bool_decide_unpack. by apply no_oncomplete_spec. Qed.

Lemma no_inherited_decide classes :
  bool_decide (Forall (λ type, type ∉ Object_prototype_names)
                 (getAllHandledEventTypes classes)) →
  no_inherited classes.
Proof.
  intros H%bool_decide_unpack type Hin.
  by apply (proj1 (Forall_forall _ _) H).
Qed.

Lemma complete_called_once_per_completion_witness :
  ∃ handlers,
    createBuildEventHandlers BUILD_EVENT_HANDLERS build1 0 = Some handlers
    ∧ finalizations
        (deliver (buildStreamConfiguration sample handlers)
           [ Opened;
             Named "BuildEvent" {| eventType := "TaskFinished"; payloadBody := "" |};
             Errored (Some STATUS_COMPLETE) CLOSED ]
           ({| retries := None; closed := false; reconnectInterval := 2000;
               journal := [] |}, initial)).2
      = [ {| handlerId := 1; handlerClass := CacheableTaskCountHandler;
             handlerBuild := build1 |} ].
Proof.
  destruct (complete_called_once_per_completion GRADLE_ENTERPRISE_SERVER_URL
              MAX_CONCURRENT_BUILDS_TO_PROCESS BUILD_EVENT_HANDLERS build1 0
              [ Opened;
                Named "BuildEvent" {| eventType := "TaskFinished"; payloadBody := "" |};
                Errored (Some STATUS_COMPLETE) CLOSED ]
              {| retries := None; closed := false; reconnectInterval := 2000;
                 journal := [] |} initial)
    as (handlers & Hcreate & Hf & _).
  - apply no_oncomplete_decide. vm_compute. exact I.
  - apply no_inherited_decide. vm_compute. exact I.
  - exists handlers. split; [exact Hcreate|]. unfold sample. rewrite Hf.
    reflexivity.
Defined.

(** ** The keys of the handler object *)

Lemma handlers_dom classes build firstId (handlers : gmap string (list Handler)) key :
  createBuildEventHandlers classes build firstId = Some handlers →
  key ∈ dom handlers ↔ ∃ cl, cl ∈ classes ∧ key ∈ registrations cl.
Proof.
  intros Hcreate.
  rewrite elem_of_dom, (createBuildEventHandlers_lookup _ _ _ _ key Hcreate).
  destruct (registered key build firstId classes) as [|h l] eqn:Hreg; simpl.
  - split; [by intros []|]. intros (cl & Hcl & Hkey).
    by destruct (proj1 (registered_nil _ _ _ _) Hreg cl Hcl).
  - split; [|done]. intros _.
    destruct (registered_elem_of h key build firstId classes) as (? & ? & _).
    { rewrite Hreg. by left. }
    by exists (handlerClass h).
Qed.

(** Apart from the key [complete], the handler object has a list exactly
    for the handled event types. *)
Lemma handlers_keys classes build firstId (handlers : gmap string (list Handler)) :
  createBuildEventHandlers classes build firstId = Some handlers →
  dom handlers ∖ {["complete"]}
  = list_to_set (getAllHandledEventTypes classes) ∖ {["complete"]}.
Proof.
  intros Hcreate. apply set_eq. intros key.
  rewrite !elem_of_difference, elem_of_list_to_set, not_elem_of_singleton.
  rewrite (handlers_dom _ _ _ _ key Hcreate), getAllHandledEventTypes_spec.
  split.
  - intros [(cl & Hcl & Hkey) Hne]. split; [|done]. exists cl. split; [done|].
    by apply registrations_elem_of in Hkey as [?|[? _]].
  - intros [(cl & Hcl & Hkey) Hne]. split; [|done]. exists cl. split; [done|].
    apply registrations_elem_of. by left.
Qed.

Lemma handlers_keys_no_oncomplete classes build firstId
    (handlers : gmap string (list Handler)) :
  no_oncomplete classes →
  createBuildEventHandlers classes build firstId = Some handlers →
  dom handlers ∖ {["complete"]} = list_to_set (getAllHandledEventTypes classes).
Proof.
  intros Hno Hcreate. rewrite (handlers_keys _ _ _ _ Hcreate).
  apply no_oncomplete_spec in Hno. apply set_eq. intros key.
  rewrite elem_of_difference, elem_of_list_to_set, not_elem_of_singleton.
  split; [by intros [? _]|]. intros Hin. split; [done|]. by intros ->.
Qed.

(** ** The streams opened by processBuild *)

Section StreamsFacts.
Variable this : BuildProcessor.

Lemma processBuild_streams build w :
  Forall (made_by_processBuild this) (buildStreams w) →
  Forall (made_by_processBuild this) (buildStreams (processBuild this build w)).
Proof.
  intros Hw. unfold processBuild.
  destruct (createBuildEventHandlers _ _ _) as [handlers|] eqn:Hcreate; [|done].
  simpl. apply Forall_app. split; [done|]. apply Forall_singleton.
  split; [done|]. simpl. by exists (allocated w).
Qed.

Lemma processPendingBuilds_streams w :
  Forall (made_by_processBuild this) (buildStreams w) →
  Forall (made_by_processBuild this) (buildStreams (processPendingBuilds this w)).
Proof.
  intros Hw. unfold processPendingBuilds.
  destruct (pendingBuilds w) as [|build rest]; [done|].
  destruct (_ <? _)%Z; [|done]. by apply processBuild_streams.
Qed.

Lemma set_streamConnection_made c s :
  made_by_processBuild this s →
  made_by_processBuild this (set_streamConnection c s).
Proof. done. Qed.

Lemma step_streams w input :
  Forall (made_by_processBuild this) (buildStreams w) →
  Forall (made_by_processBuild this) (buildStreams (step this w input)).
Proof.
  intros Hw. destruct input as [n| |i n]; simpl.
  - destruct (listener w) as [c|]; [|done]. simpl. rewrite notify_listener.
    destruct n as [|status rs|name build]; try done.
    case_bool_decide; [|done]. by apply processPendingBuilds_streams.
  - destruct (timeouts w) as [|k]; [done|]. by apply processPendingBuilds_streams.
  - destruct (buildStreams w !! i) as [s|]; [|done]. simpl.
    apply Forall_alter; [|intros s' _; by apply set_streamConnection_made].
    rewrite notify_build_stream. destruct n as [|status rs|name payload]; try done.
    + case_bool_decide; [|done].
      by destruct (build_oncomplete_fields (streamHandlers s) w)
        as (_ & _ & _ & -> & _).
    + case_bool_decide; [|done].
      by destruct (build_onevent_frame this (streamHandlers s) payload w)
        as [(_ & _ & _ & -> & _) _].
Qed.

Lemma run_streams inputs :
  Forall (made_by_processBuild this)
         (buildStreams (run this (start this initial) inputs)).
Proof.
  assert (∀ w, Forall (made_by_processBuild this) (buildStreams w) →
               Forall (made_by_processBuild this)
                      (buildStreams (run this w inputs))) as Hrun.
  { induction inputs as [|input inputs IH]; intros w Hw; [done|].
    simpl. apply IH. by apply step_streams. }
  apply Hrun. simpl. apply Forall_nil_2.
Qed.
End StreamsFacts.

(** * The claims about the handler registry *)

(** C8, as stated, fails: for a class with an [oncomplete] method the event
    type [complete] is in the Set and in the URL, but it is not among the
    keys of the handler object once the key [complete] is set aside. *)
Lemma oncomplete_type_is_requested_but_set_aside :
  let this :=
    new_BuildProcessor GRADLE_ENTERPRISE_SERVER_URL
      MAX_CONCURRENT_BUILDS_TO_PROCESS [CompletionListener] in
  allHandledEventTypes this = ["complete"]
  ∧ createBuildEventStreamUrl this (buildId build1)
    = "https://localhost:5050/build-export/v1/build/xc5vbsmsthgrq/events?eventTypes=complete"
  ∧ ∃ handlers : gmap string (list Handler),
      createBuildEventHandlers [CompletionListener] build1 0 = Some handlers
      ∧ dom handlers ∖ {["complete"]}
        ≠ list_to_set (allHandledEventTypes this).
Proof.
  split_and!; [done|done|].
  destruct (createBuildEventHandlers [CompletionListener] build1 0)
    as [handlers|] eqn:Hcreate; [|by vm_compute in Hcreate].
  exists handlers. split; [done|]. intros Heq.
  assert ("complete" ∈ dom handlers ∖ {["complete"]}) as Hin.
  { rewrite Heq. apply elem_of_list_to_set. by left. }
  apply elem_of_difference in Hin as [_ Hin]. apply Hin.
  by apply elem_of_singleton.
Qed.

(** C8, amended. The event types of a class are the names of its methods
    that start with [on], without that prefix. The Set computed by the
    constructor holds the event types of all the classes, each once. The
    URL of every per-build stream is the server URL followed by
    [/build-export/v1/build/<buildId>/events?eventTypes=] and the elements
    of that Set separated by commas. When no class declares a method called
    [oncomplete] and no event type is the name of a member of
    [Object.prototype], the handler object of a build is built and its
    keys, [complete] set aside, are the elements of the Set. *)
Theorem event_types_and_stream_url (url : string) (N : Z)
    (classes : list HandlerClass) :
  let this := new_BuildProcessor url N classes in
  (∀ cl type,
     type ∈ getHandledEventTypesForHandlerClass cl
     ↔ "on" +:+ type ∈ prototypeNames cl)
  ∧ (∀ type,
       type ∈ allHandledEventTypes this
       ↔ ∃ cl, cl ∈ classes ∧ type ∈ getHandledEventTypesForHandlerClass cl)
  ∧ NoDup (allHandledEventTypes this)
  ∧ (∀ inputs i s,
       buildStreams (run this (start this initial) inputs) !! i = Some s →
       streamUrl s
       = url +:+ "/build-export/v1/build/" +:+ buildId (streamBuild s)
           +:+ "/events?eventTypes=" +:+ join "," (getAllHandledEventTypes classes))
  ∧ (no_oncomplete classes → no_inherited classes →
     ∀ build firstId,
       ∃ handlers : gmap string (list Handler),
         createBuildEventHandlers classes build firstId = Some handlers
         ∧ dom handlers ∖ {["complete"]}
           = list_to_set (allHandledEventTypes this)).
Proof.
  intros this. split_and!.
  - apply getHandledEventTypesForHandlerClass_spec.
  - apply getAllHandledEventTypes_spec.
  - apply getAllHandledEventTypes_NoDup.
  - intros inputs i s Hs.
    pose proof (run_streams this inputs) as Hall.
    apply (proj1 (Forall_lookup _ _) Hall i s) in Hs as [-> _]. done.
  - intros Hno Hinh build firstId.
    destruct (createBuildEventHandlers_is_Some classes build firstId Hinh)
      as [handlers Hcreate].
    exists handlers. split; [done|].
    by apply (handlers_keys_no_oncomplete classes build firstId).
Qed.

Lemma event_types_and_stream_url_witness :
  ∃ handlers : gmap string (list Handler),
    createBuildEventHandlers BUILD_EVENT_HANDLERS build1 0 = Some handlers
    ∧ dom handlers ∖ {["complete"]}
      = list_to_set ["BuildStarted"; "BuildFinished"; "TaskFinished"].
Proof.
  destruct (event_types_and_stream_url GRADLE_ENTERPRISE_SERVER_URL
              MAX_CONCURRENT_BUILDS_TO_PROCESS BUILD_EVENT_HANDLERS)
    as (_ & _ & _ & _ & Hkeys).
  apply Hkeys.
  - apply no_oncomplete_decide. vm_compute. exact I.
  - apply no_inherited_decide. vm_compute. exact I.
Defined.

(** C9. A handled event should reach every instance in the list of its
    type. With a class that has an [oncomplete] method and another that has
    a [complete] method the code does otherwise: the list under the key
    [complete] holds an instance of each, an event of type [complete]
    passes the guard, and [oncomplete] is called down that list, on the
    first instance and then on the second, which has no such method. That
    is a TypeError, thrown out of the listener. *)
Lemma event_named_complete_fails :
  let this :=
    new_BuildProcessor GRADLE_ENTERPRISE_SERVER_URL
      MAX_CONCURRENT_BUILDS_TO_PROCESS
      [CompletionListener; CacheableTaskCountHandler] in
  let w :=
    run this (start this initial)
        [ ListenerNotification (Named "Build" build1);
          BuildStreamNotification 0 Opened;
          BuildStreamNotification 0
            (Named "BuildEvent"
               {| eventType := "complete"; payloadBody := "" |}) ] in
  let first := {| handlerId := 0; handlerClass := CompletionListener;
                  handlerBuild := build1 |} in
  let second := {| handlerId := 1; handlerClass := CacheableTaskCountHandler;
                   handlerBuild := build1 |} in
  ((λ s, streamHandlers s !! "complete") <$> buildStreams w)
  = [Some [first; second]]
  ∧ Set_has (allHandledEventTypes this) "complete" = true
  ∧ invocations w
    = [ {| receiver := first; method := "oncomplete";
           argument := Some {| eventType := "complete"; payloadBody := "" |} |} ]
  ∧ typeErrors w = 1%nat.
Proof. vm_compute. done. Qed.

(** Away from that collision events are dispatched as they should be. When
    no handler class declares a method called [oncomplete] and no event
    type is the name of a member of [Object.prototype], the handler object
    of a build is built and its keys, [complete] set aside, are the handled
    event types of the guard.
    An event whose type is not handled changes nothing: no method is
    called, no error is thrown. An event whose type is handled finds a list
    under its type, not empty, of instances that all have the method
    [on<EventType>]; the method is called on each of them in the order of
    the list, with the payload, and nothing else changes. *)
Theorem events_reach_only_their_handlers (url : string) (N : Z)
    (classes : list HandlerClass) (build : Build) (firstId : nat)
    (payload : BuildEventPayload) (w : World) :
  no_oncomplete classes →
  no_inherited classes →
  let this := new_BuildProcessor url N classes in
  ∃ handlers : gmap string (list Handler),
    createBuildEventHandlers classes build firstId = Some handlers
    ∧ dom handlers ∖ {["complete"]} = list_to_set (allHandledEventTypes this)
    ∧ (eventType payload ∉ allHandledEventTypes this →
       build_onevent this handlers payload w = w)
    ∧ (eventType payload ∈ allHandledEventTypes this →
       ∃ l, handlers !! eventType payload = Some l
            ∧ l ≠ []
            ∧ Forall (λ handler,
                        "on" +:+ eventType payload
                        ∈ prototypeNames (handlerClass handler)) l
            ∧ build_onevent this handlers payload w
              = set_invocations
                  (invocations w
                     ++ calls ("on" +:+ eventType payload) (Some payload) l) w).
Proof.
  intros Hno Hinh this.
  destruct (createBuildEventHandlers_is_Some classes build firstId Hinh)
    as [handlers Hcreate].
  exists handlers. split_and!; [done| | |].
  - by apply (handlers_keys_no_oncomplete classes build firstId).
  - intros Hout. unfold build_onevent, Set_has.
    by rewrite bool_decide_eq_false_2.
  - intros Hin. unfold build_onevent, Set_has.
    rewrite bool_decide_eq_true_2 by done.
    rewrite (createBuildEventHandlers_lookup _ _ _ _ (eventType payload) Hcreate).
    assert (eventType payload ≠ "complete") as Hne.
    { intros Heq. apply no_oncomplete_spec in Hno. apply Hno.
      by rewrite <- Heq. }
    assert (Forall (λ handler, "on" +:+ eventType payload
                               ∈ prototypeNames (handlerClass handler))
              (registered (eventType payload) build firstId classes)) as Hall.
    { apply Forall_forall. intros h Hh.
      apply registered_elem_of in Hh as (_ & Hreg & _).
      apply registrations_elem_of in Hreg as [Hreg|[? _]]; [|done].
      by apply getHandledEventTypesForHandlerClass_spec. }
    destruct (registered (eventType payload) build firstId classes)
      as [|h l] eqn:Hreg.
    + apply getAllHandledEventTypes_spec in Hin as (cl & Hcl & Htype).
      destruct (proj1 (registered_nil _ _ _ _) Hreg cl Hcl).
      apply registrations_elem_of. by left.
    + exists (h :: l). simpl extend. cbv iota.
      split_and!; [done|done|done|]. by apply forEach_invoke_all.
Qed.

Lemma events_reach_only_their_handlers_witness :
  let payload := {| eventType := "TaskFinished"; payloadBody := "" |} in
  ∃ handlers : gmap string (list Handler),
    createBuildEventHandlers BUILD_EVENT_HANDLERS build1 0 = Some handlers
    ∧ ∃ l, handlers !! "TaskFinished" = Some l
           ∧ l ≠ []
           ∧ build_onevent sample handlers payload initial
             = set_invocations
                 (invocations initial
                    ++ calls "onTaskFinished" (Some payload) l) initial.
Proof.
  intros payload.
  destruct (events_reach_only_their_handlers GRADLE_ENTERPRISE_SERVER_URL
              MAX_CONCURRENT_BUILDS_TO_PROCESS BUILD_EVENT_HANDLERS build1 0
              payload initial)
    as (handlers & Hcreate & _ & _ & Hin).
  - apply no_oncomplete_decide. vm_compute. exact I.
  - apply no_inherited_decide. vm_compute. exact I.
  - exists handlers. split; [exact Hcreate|].
    destruct Hin as (l & Hl & Hne & _ & Hcalls).
    + apply (bool_decide_unpack _). vm_compute. exact I.
    + exists l. split; [exact Hl|]. split; [exact Hne|exact Hcalls].
Defined.

(** * Further properties of createServerSideEventStream *)

Section StreamCallbacks.
Context {S D : Type}.
Variable cfg : Configuration S D.

Lemma stream_onevent_state name data (cs : Connection * S) :
  (stream_onevent cfg name data cs).2 = callback cfg (Named name data) cs.2.
Proof.
  unfold stream_onevent, callback.
  generalize (filter (λ l, eventName l = name) (eventListeners cfg)).
  intros ls. revert cs. induction ls as [|l ls IH]; intros cs; [done|].
  simpl. by rewrite IH.
Qed.

Lemma notify_state (cs : Connection * S) n :
  (notify cfg cs n).2 = callback cfg n cs.2.
Proof.
  destruct n as [|status rs|name data]; simpl.
  - done.
  - unfold stream_onerror. by case_bool_decide.
  - apply stream_onevent_state.
Qed.

(** X1. What the caller sees of a trace does not depend on the state of the
    connection: every open reaches [onopen], every 204 status reaches
    [oncomplete] and not [onerror], every other error reaches [onerror],
    be its ready state what it may and the stream closed by it or before
    it, and every named event reaches the listeners of its name in the
    order they were added. *)
Theorem callbacks_follow_the_notifications (ns : list (Notification D))
    (c : Connection) (s : S) :
  (deliver cfg ns (c, s)).2 = foldl (λ s n, callback cfg n s) s ns.
Proof.
  revert c s. induction ns as [|n ns IH]; intros c s; [done|].
  rewrite deliver_cons. simpl.
  destruct (notify cfg (c, s) n) as [c1 s1] eqn:Hn.
  rewrite IH. f_equal.
  change s1 with (c1, s1).2. by rewrite <- Hn, notify_state.
Qed.

Lemma notify_retries_bound (cs : Connection * S) n :
  (retries cs.1 = None
   ∨ ∃ r, retries cs.1 = Some r ∧ (0 ≤ r ≤ Z.max 0 (_maxRetries cfg))%Z) →
  retries (notify cfg cs n).1 = None
  ∨ ∃ r, retries (notify cfg cs n).1 = Some r
         ∧ (0 ≤ r ≤ Z.max 0 (_maxRetries cfg))%Z.
Proof.
  intros Hcs.
  destruct (notify_retries_cases cfg cs n)
    as [->|[->|(status & _ & _ & Hlt & ->)]]; [done| |].
  - right. exists 0%Z. split; [done|]. lia.
  - destruct Hcs as [Hr|(r & Hr & Hle)]; rewrite Hr in *; [done|].
    right. exists (r + 1)%Z. split; [done|]. simpl in Hlt. lia.
Qed.

(** X2. The retry counter of a stream is either still undefined or between
    zero and the ceiling: no trace takes it past [_maxRetries]. *)
Theorem retries_stay_within_the_ceiling (ns : list (Notification D)) (s : S) :
  let c := (deliver cfg ns (createServerSideEventStream cfg, s)).1 in
  retries c = None
  ∨ ∃ r, retries c = Some r ∧ (0 ≤ r ≤ Z.max 0 (_maxRetries cfg))%Z.
Proof.
  assert (∀ cs : Connection * S,
            (retries cs.1 = None
             ∨ ∃ r, retries cs.1 = Some r
                    ∧ (0 ≤ r ≤ Z.max 0 (_maxRetries cfg))%Z) →
            retries (deliver cfg ns cs).1 = None
            ∨ ∃ r, retries (deliver cfg ns cs).1 = Some r
                   ∧ (0 ≤ r ≤ Z.max 0 (_maxRetries cfg))%Z) as Hall.
  { induction ns as [|n ns IH]; intros cs Hcs; [done|].
    rewrite deliver_cons. by apply IH, notify_retries_bound. }
  apply Hall. by left.
Qed.

(** X3. Without a retry budget (no [retry], no [maxRetries], or one that is
    zero or negative) every error other than the 204 status that is seen
    while the stream is connecting closes it, also right after an open. *)
Theorem no_budget_closes_on_any_error (cs : Connection * S)
    (status : option Z) :
  (_maxRetries cfg ≤ 0)%Z →
  status ≠ Some STATUS_COMPLETE →
  let cs' := notify cfg cs (Errored status CONNECTING) in
  closed cs'.1 = true
  ∧ retries cs'.1 = retries cs.1
  ∧ journal cs'.1
    = journal cs.1 ++ [StreamClose; LogMaxRetriesReached; CalledOnError status].
Proof.
  intros Hmax Hstatus cs'. subst cs'. simpl. unfold stream_onerror.
  rewrite bool_decide_eq_false_2 by done.
  rewrite bool_decide_eq_true_2 by done.
  unfold retry_or_close.
  assert ((0 <? _maxRetries cfg)%Z = false) as -> by lia.
  simpl. split_and!; [done|done|]. by rewrite <- !app_assoc.
Qed.

Lemma notify_uncounted (cs : Connection * S) n r :
  (0 < _maxRetries cfg)%Z → (r < _maxRetries cfg)%Z →
  uncounted n = true →
  retries cs.1 = Some r →
  (retries (notify cfg cs n).1 = Some r ∨ retries (notify cfg cs n).1 = Some 0%Z)
  ∧ closed (notify cfg cs n).1 = closed cs.1.
Proof.
  intros Hmax Hlt Hn Hr. destruct n as [|status rs|name data].
  - split; [by right|done].
  - simpl in Hn. apply bool_decide_eq_true in Hn. simpl.
    unfold stream_onerror. case_bool_decide as Hs; [by split; [left|]|].
    case_bool_decide as Hrs; [|by split; [left|]].
    destruct Hn as [->|[->|Hn]]; [|done|done].
    unfold retry_or_close. rewrite Hr. simpl.
    assert ((0 <? _maxRetries cfg)%Z = true) as -> by lia.
    assert ((r <? _maxRetries cfg)%Z = true) as -> by lia.
    simpl. by split; [left|].
  - simpl.
    destruct (stream_onevent_connection cfg name data cs) as (-> & -> & _).
    by split; [left|].
Qed.
End StreamCallbacks.

Section StreamEdges.
Context {S D : Type}.
Variable cfg : Configuration S D.

Lemma deliver_uncounted (ns : list (Notification D)) (cs : Connection * S) :
  (0 < _maxRetries cfg)%Z →
  Forall (λ n, uncounted n = true) ns →
  retries cs.1 = Some 0%Z →
  retries (deliver cfg ns cs).1 = Some 0%Z
  ∧ closed (deliver cfg ns cs).1 = closed cs.1.
Proof.
  intros Hmax Hns. revert cs.
  induction Hns as [|n ns Hn _ IH]; intros cs Hr; [done|].
  rewrite deliver_cons.
  destruct (notify_uncounted cfg cs n 0 Hmax Hmax Hn Hr) as [Hr' Hc'].
  destruct (IH (notify cfg cs n)) as [-> ->]; [by destruct Hr'|done].
Qed.

(** X4. With a positive ceiling, a stream that has opened is not closed by
    errors that have no status, nor by errors seen while it is not
    connecting, however many there are: they are not counted, the counter
    stays at zero, and the transport goes on reconnecting. *)
Theorem errors_without_status_never_close (cs : Connection * S)
    (ns : list (Notification D)) :
  (0 < _maxRetries cfg)%Z →
  Forall (λ n, uncounted n = true) ns →
  let cs' := deliver cfg (Opened :: ns) cs in
  retries cs'.1 = Some 0%Z ∧ closed cs'.1 = closed cs.1.
Proof.
  intros Hmax Hns cs'. subst cs'. rewrite deliver_cons.
  by destruct (deliver_uncounted ns (notify cfg cs Opened) Hmax Hns) as [-> ->].
Qed.


End StreamEdges.

Lemma errors_without_status_never_close_witness :
  let cfg := retrying 1 in
  let cs := deliver cfg
              (Opened :: replicate 5 (Errored None CONNECTING))
              (createServerSideEventStream cfg, tt) in
  retries cs.1 = Some 0%Z ∧ closed cs.1 = false.
Proof.
  apply (errors_without_status_never_close (retrying 1)
           (createServerSideEventStream (retrying 1), tt)
           (replicate 5 (Errored None CONNECTING))).
  - reflexivity.
  - repeat constructor.
Defined.

Lemma no_budget_closes_on_any_error_witness :
  let cfg : Configuration unit unit :=
    {| onopen := None; onerror := None; oncomplete := None;
       eventListeners := []; retry := None |} in
  closed (notify cfg (deliver cfg [Opened] (createServerSideEventStream cfg, tt))
            (Errored (Some 503%Z) CONNECTING)).1 = true.
Proof.
  intros cfg.
  destruct (no_budget_closes_on_any_error cfg
              (deliver cfg [Opened] (createServerSideEventStream cfg, tt))
              (Some 503%Z)) as [Hclosed _].
  - vm_compute. discriminate.
  - discriminate.
  - exact Hclosed.
Defined.


(** * Further properties of the scheduler *)

Lemma sum_list_with_alter {A} (f : A → nat) (g : A → A) (l : list A) i x :
  l !! i = Some x →
  (sum_list_with f (alter g i l) + f x = sum_list_with f l + f (g x))%nat.
Proof.
  revert i. induction l as [|y l IH]; intros [|i] Hi; simplify_eq/=.
  - lia.
  - specialize (IH i Hi). lia.
Qed.

Section Accounting.
Variable this : BuildProcessor.

Lemma processBuild_balance build w :
  let w' := processBuild this build w in
  length (processed w') = Datatypes.S (length (processed w))
  ∧ numBuildsInProcess w' = (numBuildsInProcess w + 1)%Z
  ∧ completed w' = completed w.
Proof.
  unfold processBuild, completed.
  destruct (createBuildEventHandlers _ _ _); simpl;
    rewrite ?length_app, ?sum_list_with_app; simpl; split_and!; try done; lia.
Qed.

Lemma processPendingBuilds_balance w :
  let w' := processPendingBuilds this w in
  (numBuildsInProcess w' - Z.of_nat (length (processed w'))
   = numBuildsInProcess w - Z.of_nat (length (processed w)))%Z
  ∧ completed w' = completed w.
Proof.
  unfold processPendingBuilds. destruct (pendingBuilds w) as [|build rest]; [done|].
  destruct (_ <? _)%Z; [|done].
  destruct (processBuild_balance build (set_pendingBuilds rest w))
    as (-> & -> & ->). simpl. split; [lia|done].
Qed.

Lemma step_stream_completed w i s (n : Notification BuildEventPayload) :
  buildStreams w !! i = Some s →
  let w' := step this w (BuildStreamNotification i n) in
  completed w' = (completed w + if is_completion n then 1 else 0)%nat
  ∧ numBuildsInProcess w'
    = (numBuildsInProcess w - if is_completion n then 1 else 0)%Z
  ∧ timeouts w' = (timeouts w + if is_completion n then 1 else 0)%nat
  ∧ pendingBuilds w' = pendingBuilds w
  ∧ processed w' = processed w
  ∧ listener w' = listener w
  ∧ streamBuild <$> buildStreams w' = streamBuild <$> buildStreams w.
Proof.
  intros Hs. simpl. rewrite Hs. simpl.
  pose proof (notify_oncomplete (buildStreamConfiguration this (streamHandlers s))
                (streamConnection s, w) n) as Hocc.
  pose proof (notify_build_stream this (streamHandlers s) (streamConnection s) w n)
    as Hw.
  destruct (notify (buildStreamConfiguration this (streamHandlers s))
                   (streamConnection s, w) n) as [c1 w1].
  simpl in *. subst w1.
  assert (buildStreams
            match n with
            | Opened => w
            | Errored status _ =>
                if bool_decide (status = Some STATUS_COMPLETE)
                then build_oncomplete (streamHandlers s) w else w
            | Named name payload =>
                if bool_decide (name = "BuildEvent")
                then build_onevent this (streamHandlers s) payload w else w
            end = buildStreams w) as Hstreams.
  { destruct n as [|status rs|name payload]; [done| |].
    - case_bool_decide; [|done].
      by destruct (build_oncomplete_fields (streamHandlers s) w)
        as (_ & _ & _ & -> & _).
    - case_bool_decide; [|done].
      by destruct (build_onevent_frame this (streamHandlers s) payload w)
        as [(_ & _ & _ & -> & _) _]. }
  rewrite Hstreams. unfold completed at 1. simpl buildStreams.
  pose proof (sum_list_with_alter
                (λ s, occurrences CalledOnComplete (journal (streamConnection s)))
                (set_streamConnection c1) (buildStreams w) i s Hs) as Hsum.
  simpl in Hsum. rewrite Hocc in Hsum. fold (completed w) in Hsum.
  rewrite (list_fmap_alter streamBuild (set_streamConnection c1) id)
    by (by apply Forall_true).
  rewrite (list_alter_id id) by done.
  destruct n as [|status rs|name payload]; simpl in *.
  - split_and!; try done; lia.
  - case_bool_decide.
    + destruct (build_oncomplete_fields (streamHandlers s) w)
        as (-> & -> & -> & _ & -> & ->).
      split_and!; try done; lia.
    + split_and!; try done; lia.
  - case_bool_decide.
    + destruct (build_onevent_frame this (streamHandlers s) payload w)
        as [(-> & -> & -> & _ & -> & _ & ->) _].
      split_and!; try done; lia.
    + split_and!; try done; lia.
Qed.

Lemma step_balance w input :
  let w' := step this w input in
  (numBuildsInProcess w' - Z.of_nat (length (processed w'))
     + Z.of_nat (completed w')
   = numBuildsInProcess w - Z.of_nat (length (processed w))
     + Z.of_nat (completed w))%Z.
Proof.
  destruct input as [n| |i n].
  - simpl. destruct (listener w) as [c|]; [|done]. simpl.
    rewrite notify_listener. destruct n as [|status rs|name build]; try done.
    case_bool_decide; [|done]. unfold enqueue.
    destruct (processPendingBuilds_balance
                (set_pendingBuilds (pendingBuilds w ++ [build]) w)) as [Hb Hc].
    unfold completed in *. simpl in *. lia.
  - simpl. destruct (timeouts w) as [|k]; [done|].
    destruct (processPendingBuilds_balance (set_timeouts k w)) as [Hb Hc].
    unfold completed in *. simpl in *. lia.
  - cbv zeta.
    destruct (buildStreams w !! i) as [s|] eqn:Hs; [|by simpl; rewrite Hs].
    destruct (step_stream_completed w i s n Hs) as (-> & -> & _ & _ & -> & _).
    destruct (is_completion n); lia.
Qed.

(** X6. The count of builds in process is a running balance: in every
    state the event loop can reach it is the number of builds handed to
    [processBuild] less the number of clean completions reported on their
    streams, each report counting, also a second one on the same stream. *)
Theorem numBuildsInProcess_is_a_balance (inputs : list Input) :
  let w := run this (start this initial) inputs in
  numBuildsInProcess w
  = (Z.of_nat (length (processed w)) - Z.of_nat (completed w))%Z.
Proof.
  assert (∀ w, (numBuildsInProcess (run this w inputs)
                - Z.of_nat (length (processed (run this w inputs)))
                + Z.of_nat (completed (run this w inputs))
                = numBuildsInProcess w - Z.of_nat (length (processed w))
                  + Z.of_nat (completed w))%Z) as Hrun.
  { induction inputs as [|input inputs IH]; intros w; [done|].
    rewrite run_cons, IH. apply step_balance. }
  intros w. subst w. specialize (Hrun (start this initial)).
  change (numBuildsInProcess (start this initial)) with 0%Z in Hrun.
  change (processed (start this initial)) with (@nil Build) in Hrun.
  change (completed (start this initial)) with 0%nat in Hrun.
  simpl in Hrun. lia.
Qed.
End Accounting.

Section Admission.
Variable this : BuildProcessor.

Lemma processBuild_opens build w :
  no_inherited (eventHandlerClasses this) →
  streamBuild <$> buildStreams (processBuild this build w)
  = (streamBuild <$> buildStreams w) ++ [build]
  ∧ typeErrors (processBuild this build w) = typeErrors w.
Proof.
  intros Hinh. unfold processBuild.
  destruct (createBuildEventHandlers_is_Some (eventHandlerClasses this) build
              (allocated (set_numBuildsInProcess (numBuildsInProcess w + 1) w))
              Hinh) as [handlers ->].
  simpl. by rewrite fmap_app.
Qed.

Lemma processPendingBuilds_opens w :
  no_inherited (eventHandlerClasses this) →
  streamBuild <$> buildStreams w = processed w →
  streamBuild <$> buildStreams (processPendingBuilds this w)
  = processed (processPendingBuilds this w).
Proof.
  intros Hinh Hw. unfold processPendingBuilds.
  destruct (pendingBuilds w) as [|build rest]; [done|].
  destruct (_ <? _)%Z; [|done].
  destruct (processBuild_opens build (set_pendingBuilds rest w) Hinh) as [-> _].
  destruct (processBuild_fields this build (set_pendingBuilds rest w))
    as (_ & _ & _ & _ & -> & _).
  simpl. by rewrite Hw.
Qed.

Lemma step_opens w input :
  no_inherited (eventHandlerClasses this) →
  streamBuild <$> buildStreams w = processed w →
  streamBuild <$> buildStreams (step this w input)
  = processed (step this w input).
Proof.
  intros Hinh Hw. destruct input as [n| |i n].
  - simpl. destruct (listener w) as [c|]; [|done]. simpl.
    rewrite notify_listener. destruct n as [|status rs|name build]; try done.
    case_bool_decide; [|done]. by apply processPendingBuilds_opens.
  - simpl. destruct (timeouts w) as [|k]; [done|].
    by apply processPendingBuilds_opens.
  - destruct (buildStreams w !! i) as [s|] eqn:Hs; [|by simpl; rewrite Hs].
    by destruct (step_stream_completed this w i s n Hs)
      as (_ & _ & _ & _ & -> & _ & ->).
Qed.

(** X7. When no event type of the handler classes is the name of a member
    of [Object.prototype], every build handed to [processBuild] gets a
    stream of its own and nothing else does: the builds of the streams
    opened so far are the builds handed over, in the same order. *)
Theorem one_stream_per_build_handed_over (inputs : list Input) :
  no_inherited (eventHandlerClasses this) →
  let w := run this (start this initial) inputs in
  streamBuild <$> buildStreams w = processed w.
Proof.
  intros Hinh.
  assert (∀ w, streamBuild <$> buildStreams w = processed w →
               streamBuild <$> buildStreams (run this w inputs)
               = processed (run this w inputs)) as Hrun.
  { induction inputs as [|input inputs IH]; intros w Hw; [done|].
    rewrite run_cons. by apply IH, step_opens. }
  by apply Hrun.
Qed.

(** X8. A report of clean completion on a stream that exists always gives
    the slot back and sets one timer, whatever the handlers of the build
    are and whether or not a call of [complete] fails: the slot is given
    back before [complete] is called. The queue and the builds handed over
    are not touched by it. *)
Theorem completion_always_frees_the_slot (w : World) (i : nat)
    (s : BuildStream) (rs : ReadyState) :
  buildStreams w !! i = Some s →
  let w' := step this w
              (BuildStreamNotification i (Errored (Some STATUS_COMPLETE) rs)) in
  numBuildsInProcess w' = (numBuildsInProcess w - 1)%Z
  ∧ timeouts w' = Datatypes.S (timeouts w)
  ∧ pendingBuilds w' = pendingBuilds w
  ∧ processed w' = processed w.
Proof.
  intros Hs.
  destruct (step_stream_completed this w i s
              (Errored (Some STATUS_COMPLETE) rs) Hs)
    as (_ & Hn & Ht & Hq & Hp & _).
  cbv zeta. rewrite Hn, Ht, Hq, Hp. simpl. split_and!; try done. lia.
Qed.

(** X9. A completion followed by the timer it set hands the oldest queued
    build over: with a build waiting and the count within the limit, the
    two inputs leave the count as it was and move the head of the queue to
    [processBuild]. *)
Theorem completion_then_timer_starts_the_oldest (w : World) (i : nat)
    (s : BuildStream) (rs : ReadyState) (build : Build) (rest : list Build) :
  buildStreams w !! i = Some s →
  pendingBuilds w = build :: rest →
  (numBuildsInProcess w ≤ maxConcurrentBuildsToProcess this)%Z →
  let w' := run this w
              [ BuildStreamNotification i (Errored (Some STATUS_COMPLETE) rs);
                TimeoutFired ] in
  pendingBuilds w' = rest
  ∧ processed w' = processed w ++ [build]
  ∧ numBuildsInProcess w' = numBuildsInProcess w
  ∧ timeouts w' = timeouts w.
Proof.
  intros Hs Hq Hn.
  pose proof (step_stream_completed this w i s
                (Errored (Some STATUS_COMPLETE) rs) Hs) as Hstep.
  cbv zeta in *. rewrite run_cons, run_cons.
  change (run this ?x []) with x.
  remember (step this w
              (BuildStreamNotification i (Errored (Some STATUS_COMPLETE) rs)))
    as w1 eqn:Hw1.
  destruct Hstep as (_ & Hn1 & Ht1 & Hq1 & Hp1 & _).
  simpl in Hn1, Ht1.
  simpl step. rewrite Ht1, Nat.add_1_r.
  rewrite (processPendingBuilds_takes_head this (set_timeouts (timeouts w) w1)
             build rest) by (simpl; (by rewrite Hq1, Hq) || lia).
  destruct (processBuild_fields this build
              (set_pendingBuilds rest (set_timeouts (timeouts w) w1)))
    as (-> & -> & -> & _ & -> & _).
  simpl. rewrite Hp1, Hn1. split_and!; try done. lia.
Qed.
End Admission.

Section Waiting.
Variable this : BuildProcessor.

Lemma step_at_the_limit w input :
  is_Some (listener w) →
  (maxConcurrentBuildsToProcess this ≤ numBuildsInProcess w)%Z →
  is_release input = false →
  let w' := step this w input in
  is_Some (listener w')
  ∧ processed w' = processed w
  ∧ numBuildsInProcess w' = numBuildsInProcess w
  ∧ pendingBuilds w' = pendingBuilds w ++ published_by input
  ∧ length (buildStreams w') = length (buildStreams w).
Proof.
  intros Hl Hn Hinput. destruct input as [n| |i n].
  - simpl. destruct (listener w) as [c|]; [|by destruct Hl]. simpl.
    rewrite notify_listener. destruct n as [|status rs|name build]; simpl;
      rewrite ?app_nil_r; try done.
    case_bool_decide; [|by rewrite app_nil_r]. unfold enqueue.
    by rewrite processPendingBuilds_idle by by right.
  - simpl. rewrite app_nil_r. destruct (timeouts w) as [|k]; [done|].
    by rewrite processPendingBuilds_idle by by right.
  - cbv zeta. simpl published_by. rewrite app_nil_r.
    destruct (buildStreams w !! i) as [s|] eqn:Hs; [|by simpl; rewrite Hs].
    destruct (step_stream_completed this w i s n Hs)
      as (_ & Hnum & _ & Hq & Hp & Hl' & Hstreams).
    simpl in Hinput. rewrite Hinput in Hnum. cbv zeta in *.
    rewrite Hq, Hp, Hl', Hnum. split_and!; try done; [lia|].
    by rewrite <- (length_fmap streamBuild), Hstreams, length_fmap.
Qed.

(** X10. While the count is at the limit nothing is started: as long as no
    stream reports a clean completion, the builds published are added to
    the end of the queue in the order they come, no build is handed to
    [processBuild], no stream is opened and the count does not move,
    whatever timers fire and whatever else the streams report. *)
Theorem nothing_starts_at_the_limit (w : World) (inputs : list Input) :
  is_Some (listener w) →
  (maxConcurrentBuildsToProcess this ≤ numBuildsInProcess w)%Z →
  Forall (λ input, is_release input = false) inputs →
  let w' := run this w inputs in
  processed w' = processed w
  ∧ numBuildsInProcess w' = numBuildsInProcess w
  ∧ pendingBuilds w' = pendingBuilds w ++ published inputs
  ∧ length (buildStreams w') = length (buildStreams w).
Proof.
  intros Hl Hn Hinputs. revert w Hl Hn.
  induction Hinputs as [|input inputs Hinput _ IH]; intros w Hl Hn.
  - cbv zeta. unfold published. simpl. by rewrite app_nil_r.
  - cbv zeta. rewrite run_cons.
    destruct (step_at_the_limit w input Hl Hn Hinput)
      as (Hl1 & Hp1 & Hn1 & Hq1 & Hs1).
    destruct (IH (step this w input)) as (-> & -> & -> & ->);
      [done|by rewrite Hn1|].
    rewrite Hp1, Hn1, Hq1, Hs1. unfold published. simpl.
    by rewrite <- app_assoc.
Qed.

(** X11. With a free slot, [enqueue] starts the oldest build that waits
    and puts the new build at the end of the queue; the new build is
    started only when none waits. *)
Theorem enqueue_starts_the_oldest (w : World) (build : Build) :
  (numBuildsInProcess w < maxConcurrentBuildsToProcess this)%Z →
  let w' := enqueue this build w in
  processed w' = processed w ++ [default build (head (pendingBuilds w))]
  ∧ pendingBuilds w' = tail (pendingBuilds w ++ [build])
  ∧ numBuildsInProcess w' = (numBuildsInProcess w + 1)%Z.
Proof.
  intros Hn. cbv zeta. unfold enqueue.
  destruct (pendingBuilds w) as [|oldest rest] eqn:Hq.
  - rewrite (processPendingBuilds_takes_head this _ build [])
      by (simpl; by rewrite ?Hq).
    by destruct (processBuild_fields this build
                   (set_pendingBuilds [] (set_pendingBuilds ([] ++ [build]) w)))
      as (-> & -> & _ & _ & -> & _).
  - rewrite (processPendingBuilds_takes_head this _ oldest (rest ++ [build]))
      by (simpl; by rewrite ?Hq).
    by destruct (processBuild_fields this oldest
                   (set_pendingBuilds (rest ++ [build])
                      (set_pendingBuilds ((oldest :: rest) ++ [build]) w)))
      as (-> & -> & _ & _ & -> & _).
Qed.

Lemma set_listener_set_listener c c' w :
  set_listener c (set_listener c' w) = set_listener c w.
Proof. done. Qed.

(** X12. On the top-level stream only a [Build] event reaches the
    scheduler: opens, errors, also the one that closes the stream for
    good, and events of any other name change nothing but the connection
    of that stream. *)
Theorem only_Build_events_reach_the_scheduler (w : World)
    (ns : list (Notification Build)) :
  Forall (λ n, published_by (ListenerNotification n) = []) ns →
  ∃ c, run this w (ListenerNotification <$> ns) = set_listener c w.
Proof.
  intros Hns. revert w. induction Hns as [|n ns Hn _ IH]; intros w.
  - exists (listener w). by destruct w.
  - rewrite fmap_cons, run_cons.
    destruct (IH (step this w (ListenerNotification n))) as [c ->].
    simpl. destruct (listener w) as [c0|] eqn:Hl; [|by exists c].
    simpl. pose proof (notify_listener this c0 w n) as Hw.
    destruct (notify (listenerConfiguration this) (c0, w) n) as [c1 w1].
    simpl in *. subst w1. exists c.
    destruct n as [|status rs|name build]; try done.
    simpl in Hn. by case_bool_decide.
Qed.
End Waiting.

(** * Further properties of the handler registry *)

Lemma addHandler_inherited type handler (handlers handlers' : gmap string (list Handler)) :
  (∀ key, key ∈ Object_prototype_names → handlers !! key = None) →
  addHandler type handler handlers = Some handlers' →
  (type ∉ Object_prototype_names)
  ∧ ∀ key, key ∈ Object_prototype_names → handlers' !! key = None.
Proof.
  intros Hclean Hadd.
  assert (type ∉ Object_prototype_names) as Hno.
  { intros Hin. unfold addHandler in Hadd. rewrite (Hclean type Hin) in Hadd.
    by rewrite bool_decide_eq_true_2 in Hadd. }
  split; [done|]. intros key Hkey.
  rewrite (addHandler_lookup _ _ _ _ Hadd), (Hclean key Hkey).
  rewrite bool_decide_eq_false_2; [done|]. by intros ->.
Qed.

Lemma addHandlers_inherited types handler (handlers handlers' : gmap string (list Handler)) :
  (∀ key, key ∈ Object_prototype_names → handlers !! key = None) →
  addHandlers types handler handlers = Some handlers' →
  Forall (λ type, type ∉ Object_prototype_names) types
  ∧ ∀ key, key ∈ Object_prototype_names → handlers' !! key = None.
Proof.
  revert handlers. induction types as [|type types IH]; intros handlers Hclean Hadd.
  - injection Hadd as <-. split; [apply Forall_nil_2|done].
  - simpl in Hadd.
    destruct (addHandler type handler handlers) as [h1|] eqn:H1; [|done].
    simpl in Hadd. destruct (addHandler_inherited _ _ _ _ Hclean H1) as [Hno Hclean1].
    destruct (IH h1 Hclean1 Hadd) as [Hall Hclean']. split; [|done].
    by apply Forall_cons.
Qed.

Lemma reduceHandlerClasses_inherited build id classes
    (handlers handlers' : gmap string (list Handler)) :
  (∀ key, key ∈ Object_prototype_names → handlers !! key = None) →
  reduceHandlerClasses build id classes handlers = Some handlers' →
  ∀ c type, c ∈ classes → type ∈ registrations c →
    type ∉ Object_prototype_names.
Proof.
  revert id handlers. induction classes as [|c cs IH];
    intros id handlers Hclean Hred c' type Hc' Htype.
  - by apply elem_of_nil in Hc'.
  - simpl in Hred. rewrite registerHandlerClass_registrations in Hred.
    destruct (addHandlers _ _ handlers) as [h1|] eqn:H1; [|done].
    simpl in Hred.
    destruct (addHandlers_inherited _ _ _ _ Hclean H1) as [Hall Hclean1].
    apply elem_of_cons in Hc' as [->|Hc'].
    + by apply (proj1 (Forall_forall _ _) Hall).
    + by apply (IH _ _ Hclean1 Hred c').
Qed.

Lemma createBuildEventHandlers_is_Some_inv classes build firstId :
  is_Some (createBuildEventHandlers classes build firstId) →
  no_inherited classes.
Proof.
  intros [handlers Hcreate] type Hin.
  apply getAllHandledEventTypes_spec in Hin as (c & Hc & Htype).
  apply (reduceHandlerClasses_inherited build firstId classes ∅ handlers
           (λ key _, lookup_empty key) Hcreate c type Hc).
  apply registrations_elem_of. by left.
Qed.

(** X13. The handler object of a build is built exactly when no event type
    of the handler classes is the name of a member of [Object.prototype]:
    a method such as [ontoString] or [onconstructor] makes
    [createBuildEventHandlers] throw, for every build. *)
Theorem handlers_built_unless_a_type_is_inherited
    (classes : list HandlerClass) (build : Build) (firstId : nat) :
  is_Some (createBuildEventHandlers classes build firstId)
  ↔ no_inherited classes.
Proof.
  split.
  - apply createBuildEventHandlers_is_Some_inv.
  - apply createBuildEventHandlers_is_Some.
Qed.

(** X14. With such a class [processBuild] fails after it has counted the
    build: the count is incremented and the build is off the queue, but no
    stream is opened for it, so no completion will ever give the slot
    back. *)
Theorem processBuild_counts_before_it_fails (this : BuildProcessor)
    (build : Build) (w : World) :
  ¬ no_inherited (eventHandlerClasses this) →
  let w' := processBuild this build w in
  numBuildsInProcess w' = (numBuildsInProcess w + 1)%Z
  ∧ buildStreams w' = buildStreams w
  ∧ typeErrors w' = Datatypes.S (typeErrors w)
  ∧ pendingBuilds w' = pendingBuilds w.
Proof.
  intros Hinh. cbv zeta. unfold processBuild.
  destruct (createBuildEventHandlers _ _ _) as [handlers|] eqn:Hcreate; [|done].
  destruct Hinh.
  apply (createBuildEventHandlers_is_Some_inv (eventHandlerClasses this) build
           (allocated (set_numBuildsInProcess (numBuildsInProcess w + 1) w))).
  by rewrite Hcreate.
Qed.

Lemma registered_elem_of_iff handler key build id classes :
  handler ∈ registered key build id classes
  ↔ ∃ j c, classes !! j = Some c
           ∧ key ∈ registrations c
           ∧ handler = {| handlerId := id + j; handlerClass := c;
                          handlerBuild := build |}.
Proof.
  revert id. induction classes as [|c cs IH]; intros id; simpl.
  - rewrite elem_of_nil. split; [done|]. by intros (j & c & Hj & _).
  - rewrite elem_of_app, elem_of_replicate, IH. split.
    + intros [[-> Hn]|(j & c' & Hj & Hkey & ->)].
      * exists 0%nat, c. rewrite Nat.add_0_r. split_and!; try done.
        destruct (decide (key ∈ registrations c)) as [|Hno]; [done|].
        by apply times_zero in Hno.
      * exists (Datatypes.S j), c'. split_and!; try done.
        f_equal; lia.
    + intros (j & c' & Hj & Hkey & ->). destruct j as [|j]; simpl in Hj.
      * injection Hj as ->. left. rewrite Nat.add_0_r. split; [done|].
        intros Hz. by apply times_zero in Hz.
      * right. exists j, c'. split_and!; try done. f_equal; lia.
Qed.

Lemma registered_sorted key build id classes :
  Forall (λ handler, id ≤ handlerId handler) (registered key build id classes)
  ∧ StronglySorted le (handlerId <$> registered key build id classes).
Proof.
  revert id. induction classes as [|c cs IH]; intros id; simpl.
  - split; [apply Forall_nil_2|constructor].
  - destruct (IH (Datatypes.S id)) as [Hlow Hsorted]. split.
    + apply Forall_app. split.
      * apply Forall_forall. intros h Hh.
        apply elem_of_replicate in Hh as [-> _]. done.
      * eapply Forall_impl; [exact Hlow|]. simpl. lia.
    + rewrite fmap_app. apply StronglySorted_app_2; [| |done].
      * intros x1 x2 Hx1 Hx2.
        apply list_elem_of_fmap in Hx1 as (h1 & -> & Hh1).
        apply list_elem_of_fmap in Hx2 as (h2 & -> & Hh2).
        apply elem_of_replicate in Hh1 as [-> _]. simpl.
        pose proof (proj1 (Forall_forall _ _) Hlow h2 Hh2). simpl in *. lia.
      * rewrite fmap_replicate. simpl.
        generalize (times key (registrations c)). intros k.
        induction k as [|k IHk]; simpl; constructor; [done|].
        apply Forall_forall. intros x Hx.
        by apply elem_of_replicate in Hx as [-> _].
Qed.

(** X15. In the handler object of a build, the list under a key holds the
    instances of exactly the classes that register under that key (an
    [on] method for that event type, or [complete] for the key
    [complete]), each being the one instance made for its class and this
    build, and holds them in the order of the classes. The one instance of
    a class is thus the same object under each of its event types. *)
Theorem handler_lists_follow_the_classes (classes : list HandlerClass)
    (build : Build) (firstId : nat) (handlers : gmap string (list Handler))
    (key : string) (l : list Handler) :
  createBuildEventHandlers classes build firstId = Some handlers →
  handlers !! key = Some l →
  (∀ handler,
     handler ∈ l
     ↔ ∃ j c, classes !! j = Some c
              ∧ key ∈ registrations c
              ∧ handler = {| handlerId := firstId + j; handlerClass := c;
                             handlerBuild := build |})
  ∧ StronglySorted le (handlerId <$> l)
  ∧ l ≠ [].
Proof.
  intros Hcreate Hl.
  rewrite (createBuildEventHandlers_lookup _ _ _ _ key Hcreate) in Hl.
  destruct (registered key build firstId classes) as [|h l'] eqn:Hreg; [done|].
  simpl in Hl. injection Hl as <-. rewrite <- Hreg. split_and!.
  - intros handler. apply registered_elem_of_iff.
  - apply registered_sorted.
  - by rewrite Hreg.
Qed.

(** ** The order of the Set *)

Lemma foldl_Set_add_NoDup (l s : list string) :
  NoDup (s ++ l) → foldl Set_add s l = s ++ l.
Proof.
  revert s. induction l as [|x l IH]; intros s Hnd; simpl.
  - by rewrite app_nil_r.
  - apply NoDup_app in Hnd as (Hs & Hdisj & Hl).
    apply NoDup_cons in Hl as [Hx Hl].
    unfold Set_add at 2. rewrite bool_decide_eq_false_2.
    + rewrite IH, <- app_assoc; [done|]. rewrite <- app_assoc. simpl.
      apply NoDup_app. split_and!; [done| |by apply NoDup_cons].
      intros y Hy. by apply Hdisj.
    + intros Hin. apply (Hdisj x Hin). by left.
Qed.

Lemma foldl_Set_add_absorbed (l s : list string) :
  (∀ x, x ∈ l → x ∈ s) → foldl Set_add s l = s.
Proof.
  revert s. induction l as [|x l IH]; intros s Hin; [done|].
  simpl. unfold Set_add at 2. rewrite bool_decide_eq_true_2 by (apply Hin; by left).
  apply IH. intros y Hy. apply Hin. by right.
Qed.

Lemma foldl_concat {A} (f : A → list string) (l : list A) (acc : list string) :
  foldl (λ eventTypes a, eventTypes ++ f a) acc l = acc ++ mjoin (f <$> l).
Proof.
  revert acc. induction l as [|a l IH]; intros acc; simpl.
  - by rewrite app_nil_r.
  - by rewrite IH, <- app_assoc.
Qed.

(** X16. The Set of handled event types, and with it the list of types in
    the URL of every per-build stream, keeps the order in which the
    classes declare them: when no event type is declared twice it is the
    event types of the classes one class after the other; and a further
    class whose event types are all handled already changes nothing. *)
Theorem event_types_keep_declaration_order (classes : list HandlerClass) :
  (NoDup (mjoin (getHandledEventTypesForHandlerClass <$> classes)) →
   getAllHandledEventTypes classes
   = mjoin (getHandledEventTypesForHandlerClass <$> classes))
  ∧ ∀ c,
      (∀ type, type ∈ getHandledEventTypesForHandlerClass c →
               type ∈ getAllHandledEventTypes classes) →
      getAllHandledEventTypes (classes ++ [c]) = getAllHandledEventTypes classes.
Proof.
  unfold getAllHandledEventTypes, new_Set. split.
  - intros Hnd. rewrite foldl_concat. simpl.
    by rewrite foldl_Set_add_NoDup.
  - intros c Hc. rewrite !foldl_concat, fmap_app. simpl.
    rewrite join_app, foldl_app. simpl. rewrite app_nil_r.
    apply foldl_Set_add_absorbed. intros type Htype.
    specialize (Hc type Htype). by rewrite foldl_concat in Hc.
Qed.

(** ** The further properties on the sample processor *)

Lemma one_stream_per_build_handed_over_witness :
  let w := run sample (start sample initial)
             [ ListenerNotification (Named "Build" build1);
               BuildStreamNotification 0 Opened ] in
  streamBuild <$> buildStreams w = processed w.
Proof.
  apply (one_stream_per_build_handed_over sample
           [ ListenerNotification (Named "Build" build1);
             BuildStreamNotification 0 Opened ]).
  apply no_inherited_decide. vm_compute. exact I.
Defined.

Lemma completion_always_frees_the_slot_witness :
  let w := run sample (start sample initial)
             [ ListenerNotification (Named "Build" build1) ] in
  let w' := step sample w
              (BuildStreamNotification 0 (Errored (Some STATUS_COMPLETE) CLOSED)) in
  numBuildsInProcess w = 1%Z
  ∧ numBuildsInProcess w' = (numBuildsInProcess w - 1)%Z
  ∧ timeouts w' = 1%nat.
Proof.
  intros w w'.
  assert (is_Some (buildStreams w !! 0%nat)) as [s Hs] by (vm_compute; eauto).
  destruct (completion_always_frees_the_slot sample w 0 s CLOSED Hs)
    as (Hn & Ht & _).
  split; [reflexivity|]. split; [exact Hn|exact Ht].
Defined.

Lemma completion_then_timer_starts_the_oldest_witness :
  let this := new_BuildProcessor GRADLE_ENTERPRISE_SERVER_URL 1
                BUILD_EVENT_HANDLERS in
  let build2 := {| buildId := "o2dwqjbvk7tbi" |} in
  let w := run this (start this initial)
             [ ListenerNotification (Named "Build" build1);
               ListenerNotification (Named "Build" build2) ] in
  let w' := run this w
              [ BuildStreamNotification 0 (Errored (Some STATUS_COMPLETE) CLOSED);
                TimeoutFired ] in
  pendingBuilds w = [build2]
  ∧ pendingBuilds w' = []
  ∧ processed w' = processed w ++ [build2].
Proof.
  intros this build2 w w'.
  assert (is_Some (buildStreams w !! 0%nat)) as [s Hs] by (vm_compute; eauto).
  destruct (completion_then_timer_starts_the_oldest this w 0 s CLOSED build2 []
              Hs)
    as (Hq & Hp & _).
  - reflexivity.
  - vm_compute. discriminate.
  - split; [reflexivity|]. split; [exact Hq|exact Hp].
Defined.

Lemma nothing_starts_at_the_limit_witness :
  let this := new_BuildProcessor GRADLE_ENTERPRISE_SERVER_URL 1
                BUILD_EVENT_HANDLERS in
  let build2 := {| buildId := "o2dwqjbvk7tbi" |} in
  let w := run this (start this initial)
             [ ListenerNotification (Named "Build" build1) ] in
  let w' := run this w
              [ ListenerNotification (Named "Build" build2); TimeoutFired;
                BuildStreamNotification 0 (Errored (Some 503%Z) CONNECTING) ] in
  processed w' = processed w
  ∧ pendingBuilds w' = pendingBuilds w ++ [build2].
Proof.
  intros this build2 w w'.
  destruct (nothing_starts_at_the_limit this w
              [ ListenerNotification (Named "Build" build2); TimeoutFired;
                BuildStreamNotification 0 (Errored (Some 503%Z) CONNECTING) ])
    as (Hp & _ & Hq & _).
  - vm_compute. eauto.
  - vm_compute. discriminate.
  - repeat constructor.
  - split; [exact Hp|exact Hq].
Defined.

Lemma enqueue_starts_the_oldest_witness :
  let w := enqueue sample build1 (start sample initial) in
  processed w = [build1] ∧ pendingBuilds w = [] ∧ numBuildsInProcess w = 1%Z.
Proof.
  apply (enqueue_starts_the_oldest sample (start sample initial) build1).
  reflexivity.
Defined.

Lemma only_Build_events_reach_the_scheduler_witness :
  ∃ c, run sample (start sample initial)
         (ListenerNotification
            <$> [ Opened; Errored (Some 503%Z) CONNECTING;
                  Named "BuildEvent" build1; Errored None CLOSED ])
       = set_listener c (start sample initial).
Proof.
  apply (only_Build_events_reach_the_scheduler sample (start sample initial)
           [ Opened; Errored (Some 503%Z) CONNECTING;
             Named "BuildEvent" build1; Errored None CLOSED ]).
  repeat constructor.
Defined.

Lemma processBuild_counts_before_it_fails_witness :
  let this := new_BuildProcessor GRADLE_ENTERPRISE_SERVER_URL
                MAX_CONCURRENT_BUILDS_TO_PROCESS
                [ {| prototypeNames := ["constructor"; "ontoString"] |} ] in
  let w := processBuild this build1 (start this initial) in
  numBuildsInProcess w = 1%Z ∧ buildStreams w = [] ∧ typeErrors w = 1%nat.
Proof.
  intros this w.
  destruct (processBuild_counts_before_it_fails this build1 (start this initial))
    as (Hn & Hs & He & _).
  - intros Hinh. apply (Hinh "toString").
    + apply (bool_decide_unpack _). vm_compute. exact I.
    + apply (bool_decide_unpack _). vm_compute. exact I.
  - split; [exact Hn|]. split; [exact Hs|exact He].
Defined.

Lemma handler_lists_follow_the_classes_witness :
  ∃ handlers l,
    createBuildEventHandlers BUILD_EVENT_HANDLERS build1 0 = Some handlers
    ∧ handlers !! "TaskFinished" = Some l
    ∧ StronglySorted le (handlerId <$> l)
    ∧ l ≠ [].
Proof.
  destruct (createBuildEventHandlers BUILD_EVENT_HANDLERS build1 0)
    as [handlers|] eqn:Hcreate; [|by vm_compute in Hcreate].
  destruct (handlers !! "TaskFinished") as [l|] eqn:Hl.
  - exists handlers, l.
    destruct (handler_lists_follow_the_classes BUILD_EVENT_HANDLERS build1 0
                handlers "TaskFinished" l Hcreate Hl) as (_ & Hsorted & Hne).
    split; [reflexivity|]. split; [exact Hl|]. split; [exact Hsorted|exact Hne].
  - exfalso. vm_compute in Hcreate. injection Hcreate as <-.
    by vm_compute in Hl.
Defined.

Lemma event_types_keep_declaration_order_witness :
  getAllHandledEventTypes BUILD_EVENT_HANDLERS
  = ["BuildStarted"; "BuildFinished"; "TaskFinished"]
  ∧ getAllHandledEventTypes
      (BUILD_EVENT_HANDLERS ++ [BuildDurationEventsHandler])
    = getAllHandledEventTypes BUILD_EVENT_HANDLERS.
Proof.
  destruct (event_types_keep_declaration_order BUILD_EVENT_HANDLERS)
    as [Horder Hmore]. split.
  - rewrite Horder; [reflexivity|].
    apply (bool_decide_unpack _). vm_compute. exact I.
  - apply Hmore. intros type Htype.
    revert type Htype. apply Forall_forall.
    apply (bool_decide_unpack _). vm_compute. exact I.
Defined.

(** * The handler classes of the sample *)

Section StreamSteps.
Variable this : BuildProcessor.

End StreamSteps.







Section SampleHandlerFacts.
Variable timestamp : BuildEventPayload → option Z.
Variable cacheable : BuildEventPayload → option bool.

Lemma replay_app l l' :
  replay timestamp cacheable (l ++ l')
  = foldl (perform timestamp cacheable) (replay timestamp cacheable l) l'.
Proof. unfold replay. by rewrite foldl_app. Qed.



(** [onTaskFinished] on a run of payloads that all have [data]: the count
    goes up by the number of cacheable ones. *)
Lemma onTaskFinished_counts payloads this :
  Forall (λ payload, is_Some (cacheable payload)) payloads →
  foldl (λ this payload, this ≫= onTaskFinished cacheable payload)
        (Some this) payloads
  = Some {| countBuildId := countBuildId this;
            cacheableTaskCount :=
              cacheableTaskCount this
              + Z.of_nat (length (filter (λ payload, cacheable payload = Some true)
                                         payloads)) |}.
Proof.
  intros Hall. revert this.
  induction Hall as [|payload payloads [b Hb] _ IH]; intros this.
  - simpl. rewrite Z.add_0_r. by destruct this.
  - simpl. unfold onTaskFinished at 2. rewrite Hb. destruct b.
    + rewrite IH. simpl. rewrite filter_cons_True by done. simpl.
      do 2 f_equal. lia.
    + rewrite IH. by rewrite filter_cons_False by congruence.
Qed.










End SampleHandlerFacts.

Section SampleClassFacts.
Variable timestamp : BuildEventPayload → option Z.
Variable cacheable : BuildEventPayload → option bool.



(** X19. An instance of [CacheableTaskCountHandler] that has seen task
    events which all have [data] logs, on [complete], the number of those
    whose [cacheable] is truthy. *)
Theorem complete_logs_the_number_of_cacheable_tasks (build : Build)
    (payloads : list BuildEventPayload) :
  Forall (λ payload, is_Some (cacheable payload)) payloads →
  complete
    <$> foldl (λ this payload, this ≫= onTaskFinished cacheable payload)
              (Some (new_CacheableTaskCountHandler build)) payloads
  = Some ("Build " +:+ buildId build +:+ " had "
            +:+ pretty (Z.of_nat
                          (length (filter (λ payload,
                                             cacheable payload = Some true)
                                          payloads)))
            +:+ " cacheable tasks").
Proof.
  intros Hall. by rewrite (onTaskFinished_counts cacheable payloads _ Hall).
Qed.
End SampleClassFacts.

Lemma complete_logs_the_number_of_cacheable_tasks_witness :
  let cacheable := λ payload, Some (bool_decide (payloadBody payload = "cacheable")) in
  complete
    <$> foldl (λ this payload, this ≫= onTaskFinished cacheable payload)
              (Some (new_CacheableTaskCountHandler build1))
              [ {| eventType := "TaskFinished"; payloadBody := "cacheable" |};
                {| eventType := "TaskFinished"; payloadBody := "" |};
                {| eventType := "TaskFinished"; payloadBody := "cacheable" |} ]
  = Some "Build xc5vbsmsthgrq had 2 cacheable tasks".
Proof.
  intros cacheable.
  rewrite (complete_logs_the_number_of_cacheable_tasks cacheable build1).
  - reflexivity.
  - repeat constructor; by eexists.
Defined.


(** * Further properties of the URLs and of the reconnection interval *)

Lemma length_append (s t : string) :
  String.length (s +:+ t) = (String.length s + String.length t)%nat.
Proof. induction s as [|a s IH]; simpl; [done|by rewrite IH]. Qed.

Lemma append_inv_head (s t1 t2 : string) : s +:+ t1 = s +:+ t2 → t1 = t2.
Proof. induction s as [|a s IH]; simpl; [done|]. intros [=]. by apply IH. Qed.

Lemma append_inv_tail (s1 s2 t : string) : s1 +:+ t = s2 +:+ t → s1 = s2.
Proof.
  revert s2. induction s1 as [|a s1 IH]; intros [|b s2] Heq; simpl in Heq.
  - done.
  - apply (f_equal String.length) in Heq.
    rewrite !length_append in Heq. simpl in Heq.
    rewrite ?length_append in Heq. lia.
  - apply (f_equal String.length) in Heq.
    rewrite !length_append in Heq. simpl in Heq.
    rewrite ?length_append in Heq. lia.
  - injection Heq as -> Heq. f_equal. by apply IH.
Qed.

(** X20. The URL of a stream tells what it was made for: two per-build
    URLs of one processor are the same only for the same build id, and two
    top-level URLs only for the same start time. *)
Theorem stream_urls_tell_their_subject_apart (this : BuildProcessor)
    (a b : string) :
  (createBuildEventStreamUrl this a = createBuildEventStreamUrl this b ↔ a = b)
  ∧ (createBuildStreamUrl this a = createBuildStreamUrl this b ↔ a = b).
Proof.
  unfold createBuildEventStreamUrl, createBuildStreamUrl.
  split; (split; [|by intros ->]); intros Heq;
    apply append_inv_head, append_inv_head, append_inv_tail in Heq; done.
Qed.

Section IntervalFacts.
Context {S D : Type}.
Variable cfg : Configuration S D.

Lemma notify_reconnectInterval (cs : Connection * S) (n : Notification D) :
  reconnectInterval (notify cfg cs n).1 = reconnectInterval cs.1.
Proof.
  destruct n as [|status rs|name data]; simpl.
  - done.
  - unfold stream_onerror. case_bool_decide; [done|]. simpl.
    case_bool_decide; [|done]. unfold retry_or_close.
    destruct (_ && _); [|done]. by destruct status.
  - unfold stream_onevent.
    generalize (filter (λ l, eventName l = name) (eventListeners cfg)).
    intros ls. revert cs. induction ls as [|l ls IH]; intros cs; [done|].
    simpl. by rewrite IH.
Qed.

(** X21. The reconnection interval is set once, when the stream is made,
    and nothing that happens on the stream changes it: it is the interval
    of the configuration, or 1000 when that is missing or 0, so it is
    never 0. *)
Theorem reconnectInterval_is_set_once (ns : list (Notification D)) (s : S) :
  let c := (deliver cfg ns (createServerSideEventStream cfg, s)).1 in
  reconnectInterval c = _retryInterval cfg
  ∧ reconnectInterval c ≠ 0%Z
  ∧ (retry cfg ≫= interval = None ∨ retry cfg ≫= interval = Some 0%Z →
     reconnectInterval c = 1000%Z).
Proof.
  assert (∀ cs, reconnectInterval (deliver cfg ns cs).1 = reconnectInterval cs.1)
    as Hkeep.
  { induction ns as [|n ns IH]; intros cs; [done|].
    by rewrite deliver_cons, IH, notify_reconnectInterval. }
  cbv zeta. rewrite Hkeep. simpl. unfold _retryInterval, js_or. split_and!.
  - done.
  - destruct (retry cfg ≫= interval) as [v|]; [|done].
    destruct (Z.eqb_spec v 0); [done|done].
  - by intros [->| ->].
Qed.
End IntervalFacts.
